(** * SudokuMaster: the solver engine of [sudoku_solver.py]

    A shallow embedding of [FastSudokuSolver] (backtracking + MRV + bitmasks)
    and of [sanitize_puzzle_bank], followed by the properties of the
    specification that concern them.

    Conventions of the embedding:
    - Python [int] is [Z] (unbounded); list indices, which the code only ever
      draws from [range(9)], are [nat].
    - A Python [str] is a list of Unicode code points.
    - [self] is threaded explicitly; a raised [ValueError] is a value returned
      together with the engine as the exception left it.
    - [for] loops with [return] / [raise] inside are folds with early exit
      ([for_in]). *)

From Stdlib Require Import List ZArith NArith Lia Bool Arith Sorted.
From Stdlib Require String Ascii DecimalString DecimalN.
Import ListNotations String.StringSyntax.
Delimit Scope string_scope with string.
Open Scope Z_scope.

(** ** Python strings and the built-ins used by the loader *)

Definition char := N.
Definition str := list char.

Definition of_string (s : String.string) : str :=
  List.map Ascii.N_of_ascii (String.list_ascii_of_string s).
Arguments of_string s%_string.

Definition ch_dot : char := 46%N.
Definition ch_0 : char := 48%N.

(** [str.isdigit] and [int] are CPython built-ins.  Their behaviour on one
    character is determined by the Unicode Character Database (here version
    14.0.0, the one of CPython 3.11): [int] accepts exactly the characters of
    category Nd, which come in runs of ten consecutive code points valued
    0..9; [isdigit] accepts those and the characters whose Numeric_Type is
    Digit (superscripts, circled digits, ...), on which [int] raises. *)

Definition decimal_zeros : list N :=
  [48; 1632; 1776; 1984; 2406; 2534; 2662; 2790; 2918; 3046; 3174; 3302;
   3430; 3558; 3664; 3792; 3872; 4160; 4240; 6112; 6160; 6470; 6608; 6784;
   6800; 6992; 7088; 7232; 7248; 42528; 43216; 43264; 43472; 43504; 43600;
   44016; 65296; 66720; 68912; 69734; 69872; 69942; 70096; 70384; 70736;
   70864; 71248; 71360; 71472; 71904; 72016; 72784; 73040; 73120; 92768;
   92864; 93008; 120782; 120792; 120802; 120812; 120822; 123200; 123632;
   125264; 130032]%N.

Definition other_digit_ranges : list (N * N) :=
  [(178, 179); (185, 185); (4969, 4977); (6618, 6618); (8304, 8304);
   (8308, 8313); (8320, 8329); (9312, 9320); (9332, 9340); (9352, 9360);
   (9450, 9450); (9461, 9469); (9471, 9471); (10102, 10110); (10112, 10120);
   (10122, 10130); (68160, 68163); (69216, 69224); (69714, 69722);
   (127232, 127242)]%N.

Fixpoint decimal_in (zeros : list N) (ch : char) : option Z :=
  match zeros with
  | [] => None
  | z :: zs =>
      if ((z <=? ch) && (ch <? z + 10))%N then Some (Z.of_N (ch - z))
      else decimal_in zs ch
  end.

(** [int(ch)] for a one-character string: [None] stands for the
    [ValueError] that [int] itself raises. *)
Definition int (ch : char) : option Z := decimal_in decimal_zeros ch.

Definition isdecimal (ch : char) : bool :=
  match int ch with Some _ => true | None => false end.

Definition isdigit (ch : char) : bool :=
  isdecimal ch
  || existsb (fun '(lo, hi) => ((lo <=? ch) && (ch <=? hi))%N)
       other_digit_ranges.

(** [ch in t] for a one-character [ch]. *)
Definition char_in (ch : char) (t : str) : bool := existsb (N.eqb ch) t.

(** ** Loops with early exit *)

Inductive ctl (R S : Type) : Type :=
| Next (s : S)
| Exit (r : R).
Arguments Next {R S} s.
Arguments Exit {R S} r.

Fixpoint for_in {A R S : Type} (xs : list A) (body : A -> S -> ctl R S)
  (s : S) : ctl R S :=
  match xs with
  | [] => Next s
  | x :: xs' =>
      match body x s with
      | Next s' => for_in xs' body s'
      | Exit r => Exit r
      end
  end.

(** [range(n)] and [range(a, b)]. *)
Definition range (n : nat) : list nat := seq 0 n.
Definition range_Z (a b : nat) : list Z := List.map Z.of_nat (seq a (b - a)).

(** Python truthiness of an [int]. *)
Definition truthy (z : Z) : bool := negb (z =? 0).

(** ** The engine *)

Record engine : Type := mkEngine {
  board : list (list Z);
  row_masks : list Z;
  col_masks : list Z;
  box_masks : list Z;
  stop_requested : bool
}.

(** [l[i] = x].  The code indexes only with values of [range(9)] into lists of
    length 9 (see [wf]); out of range Python raises [IndexError], and this
    function leaves the list alone. *)
Fixpoint upd {A : Type} (l : list A) (i : nat) (x : A) : list A :=
  match l, i with
  | [], _ => []
  | _ :: t, O => x :: t
  | h :: t, S i' => h :: upd t i' x
  end.

Definition zeros9 : list Z := repeat 0 9.

(** [FastSudokuSolver.__init__] *)
Definition init : engine :=
  mkEngine (repeat zeros9 9) zeros9 zeros9 zeros9 false.

Definition cell (s : engine) (r c : nat) : Z := nth c (nth r (board s) []) 0.
Definition row_mask (s : engine) (r : nat) : Z := nth r (row_masks s) 0.
Definition col_mask (s : engine) (c : nat) : Z := nth c (col_masks s) 0.
Definition box_mask (s : engine) (b : nat) : Z := nth b (box_masks s) 0.

(** [(r//3)*3 + (c//3)] *)
Definition box_index (r c : nat) : nat := (r / 3) * 3 + c / 3.

(** [1 << (v-1)] *)
Definition bit_of (v : Z) : Z := Z.shiftl 1 (v - 1).

(** The four statements shared by the loader and the search:
    [board[r][c] = v; row_masks[r] |= bit; col_masks[c] |= bit;
     box_masks[bidx] |= bit]. *)
Definition place (s : engine) (r c : nat) (v : Z) : engine :=
  let bit := bit_of v in
  let bidx := box_index r c in
  mkEngine
    (upd (board s) r (upd (nth r (board s) []) c v))
    (upd (row_masks s) r (Z.lor (row_mask s r) bit))
    (upd (col_masks s) c (Z.lor (col_mask s c) bit))
    (upd (box_masks s) bidx (Z.lor (box_mask s bidx) bit))
    (stop_requested s).

(** The backtrack statements:
    [board[r][c] = 0; row_masks[r] &= ~bit; col_masks[c] &= ~bit;
     box_masks[bidx] &= ~bit]. *)
Definition unplace (s : engine) (r c : nat) (v : Z) : engine :=
  let bit := bit_of v in
  let bidx := box_index r c in
  mkEngine
    (upd (board s) r (upd (nth r (board s) []) c 0))
    (upd (row_masks s) r (Z.land (row_mask s r) (Z.lnot bit)))
    (upd (col_masks s) c (Z.land (col_mask s c) (Z.lnot bit)))
    (upd (box_masks s) bidx (Z.land (box_mask s bidx) (Z.lnot bit)))
    (stop_requested s).

(** ** [load_board] *)

Inductive ValueError : Type :=
| BadPuzzle                          (* "Puzzle must be 81-character string" *)
| IntLiteral (ch : char)             (* raised by [int(ch)] itself *)
| DigitRange (v : Z)                 (* "Digits must be 1-9, found {v}" *)
| DuplicateRow (v : Z) (i : nat)     (* "Duplicate {v} in row {i}" *)
| DuplicateCol (v : Z) (j : nat)     (* "Duplicate {v} in column {j}" *)
| DuplicateBox (v : Z) (bidx : nat)  (* "Duplicate {v} in box {bidx}" *)
| InvalidCharacter (ch : char).      (* "Invalid character: {ch}" *)

Inductive outcome : Type :=
| Returned
| Raised (e : ValueError).

(** The body of the two nested loops, lines 77-99.  On [Exit] the engine is
    the one the exception leaves behind. *)
Definition load_cell (puzzle : str) (i j : nat) (s : engine)
  : ctl (engine * ValueError) engine :=
  let ch := nth (i * 9 + j) puzzle 0%N in
  if isdigit ch && negb (ch =? ch_0)%N then
    match int ch with
    | None => Exit (s, IntLiteral ch)
    | Some v =>
        if negb ((1 <=? v) && (v <=? 9)) then Exit (s, DigitRange v)
        else
          let bit := bit_of v in
          let bidx := box_index i j in
          if truthy (Z.land (row_mask s i) bit) then Exit (s, DuplicateRow v i)
          else if truthy (Z.land (col_mask s j) bit) then
            Exit (s, DuplicateCol v j)
          else if truthy (Z.land (box_mask s bidx) bit) then
            Exit (s, DuplicateBox v bidx)
          else Next (place s i j v)
    end
  else if negb (char_in ch [ch_dot; ch_0]) then Exit (s, InvalidCharacter ch)
  else Next s.

(** [FastSudokuSolver.load_board].  The argument has type [str], so the
    [isinstance] test always passes. *)
Definition load_board (s : engine) (puzzle : str) : engine * outcome :=
  if negb (length puzzle =? 81)%nat then (s, Raised BadPuzzle)
  else
    let s0 := mkEngine (repeat zeros9 9) zeros9 zeros9 zeros9
                (stop_requested s) in
    match
      for_in (range 9)
        (fun i s1 => for_in (range 9) (fun j s2 => load_cell puzzle i j s2) s1)
        s0
    with
    | Next s' => (s', Returned)
    | Exit (s', e) => (s', Raised e)
    end.

(** ** Candidates and MRV selection *)

(** [FastSudokuSolver._get_candidates] *)
Definition _get_candidates (s : engine) (r c : nat) : list Z :=
  if negb (cell s r c =? 0) then []
  else
    let bidx := box_index r c in
    let used := Z.lor (Z.lor (row_mask s r) (col_mask s c)) (box_mask s bidx) in
    filter (fun v => negb (truthy (Z.land used (bit_of v)))) (range_Z 1 10).

Definition mrv_cell : Type := (nat * nat * list Z)%type.

(** The body of the scan of [_find_mrv_cell]; the loop state is
    [(best, best_len)], an [Exit] is a [return] from inside the loops. *)
Definition mrv_step (s : engine) (i j : nat) (acc : option mrv_cell * nat)
  : ctl (option mrv_cell) (option mrv_cell * nat) :=
  let '(best, best_len) := acc in
  if (cell s i j =? 0) then
    let cands := _get_candidates s i j in
    match cands with
    | [] => Exit None
    | _ =>
        if (length cands <? best_len)%nat then
          if (length cands =? 1)%nat then Exit (Some (i, j, cands))
          else Next (Some (i, j, cands), length cands)
        else Next (best, best_len)
    end
  else Next (best, best_len).

(** [FastSudokuSolver._find_mrv_cell] *)
Definition _find_mrv_cell (s : engine) : option mrv_cell :=
  match
    for_in (range 9)
      (fun i acc => for_in (range 9) (fun j acc' => mrv_step s i j acc') acc)
      (None, 10%nat)
  with
  | Next (best, _) => best
  | Exit r => r
  end.

(** ** The search *)

(** [FastSudokuSolver.stop], called from the controlling thread. *)
Definition stop (s : engine) : engine :=
  mkEngine (board s) (row_masks s) (col_masks s) (box_masks s) true.

Definition set_stop_requested (s : engine) (b : bool) : engine :=
  mkEngine (board s) (row_masks s) (col_masks s) (box_masks s) b.

(** A run of the search thread: the engine, the number of times the search
    has read [stop_requested] so far, and (ghost) the engines produced by
    every placement and every backtrack so far, newest first. *)
Record run : Type := mkRun {
  self : engine;
  polls : nat;
  history : list engine
}.

(** Reading [self.stop_requested] in the search thread.  The only concurrent
    writer is [stop]; [env k] tells whether the controlling thread has called
    it since the previous read (or since [solve] cleared the flag, for
    [k = 0]). *)
Definition poll (env : nat -> bool) (w : run) : bool * run :=
  let s := if env (polls w) then stop (self w) else self w in
  (stop_requested s, mkRun s (S (polls w)) (history w)).

(** A mutation of the grid and masks, logged in the ghost history. *)
Definition mutate (w : run) (s : engine) : run :=
  mkRun s (polls w) (s :: history w).

(** Lines 139-143: the scan for a remaining 0 after [_find_mrv_cell]
    returned [None]. *)
Definition check_solved (s : engine) : bool :=
  match
    for_in (range 9)
      (fun r (u : unit) =>
         for_in (range 9)
           (fun c (u' : unit) =>
              if cell s r c =? 0 then Exit false else Next u') u)
      tt
  with
  | Next _ => true
  | Exit b => b
  end.

(** [FastSudokuSolver._solve_recursive].  [fuel] bounds the depth of the
    recursion; [None] means the fuel ran out. *)
Fixpoint _solve_recursive (fuel : nat) (env : nat -> bool) (w : run)
  : option (bool * run) :=
  match fuel with
  | O => None
  | S fuel' =>
      let (stopped, w1) := poll env w in
      if stopped then Some (false, w1)
      else
        match _find_mrv_cell (self w1) with
        | None => Some (check_solved (self w1), w1)
        | Some (r, c, cands) =>
            match
              for_in cands
                (fun v w2 =>
                   let (stopped', w3) := poll env w2 in
                   if stopped' then Exit (Some (false, w3))
                   else
                     let w4 := mutate w3 (place (self w3) r c v) in
                     match _solve_recursive fuel' env w4 with
                     | None => Exit None
                     | Some (true, w5) => Exit (Some (true, w5))
                     | Some (false, w5) =>
                         Next (mutate w5 (unplace (self w5) r c v))
                     end)
                w1
            with
            | Next w' => Some (false, w')
            | Exit res => res
            end
        end
  end.

(** The depth of the recursion on a 9x9 board is at most 82 frames: one per
    empty cell, and the frame that finds the board full. *)
Definition solve_fuel : nat := 82.

(** [FastSudokuSolver.solve] *)
Definition solve (env : nat -> bool) (s : engine) : option (bool * run) :=
  _solve_recursive solve_fuel env
    (mkRun (set_stop_requested s false) O []).

(** [FastSudokuSolver.get_solution]: [[row[:] for row in self.board]]. *)
Definition get_solution (s : engine) : list (list Z) :=
  List.map (fun row => row) (board s).

(** ** The puzzle bank *)

Definition RAW_PUZZLE_BANK : list (String.string * list str) :=
  [("Easy"%string,
    [of_string "53..7....6..195....98....6.8...6...34..8.3..17...2...6.6....28....419..5....8..79";
     of_string "..3.2.6..9..3.5..1..18.64....81.29..7.......8..67.82....26.95..8..2.3..9..5.1.3..";
     of_string "2...8.3...6..7..84.3.5..2.9...1.54.8.........4.27.6...3.1..7.4.72..4..6...4.1...3"]);
   ("Medium"%string,
    [of_string "1....7.9..3..2...8..96..5....53..9...1..8...26....4...3......1..4......7..7...3..";
     of_string "6.....8.3.4.7.................5.4.7.3......2.....5.....9..1....8.......2.9.7.....5"]);
   ("Hard"%string,
    [of_string "8..........36......7..9.2...5...7.......457.....1...3...1....68..85...1..9....4..";
     of_string "....7..5...21..9..1...28....7...5..1..851.....5....3.......3..68........21.....87"])].

(** [sanitize_puzzle_bank]; the bare [except:] swallows whatever
    [load_board] raises. *)
Definition sanitize_puzzle_bank (raw_dict : list (String.string * list str))
  : list (String.string * str) :=
  let bank :=
    flat_map
      (fun '(difficulty, puzzles) =>
         flat_map
           (fun puzzle =>
              if negb (length puzzle =? 81)%nat then []
              else if negb (forallb
                              (fun c => char_in c (of_string "0123456789."))
                              puzzle)
              then []
              else
                match load_board init puzzle with
                | (_, Returned) => [(difficulty, puzzle)]
                | (_, Raised _) => []
                end)
           puzzles)
      raw_dict in
  match bank with
  | [] => [("Easy"%string, repeat ch_dot 81)]
  | _ => bank
  end.

Definition PUZZLE_BANK : list (String.string * str) :=
  sanitize_puzzle_bank RAW_PUZZLE_BANK.

(** ** Vocabulary of the specification *)

(** The shape every engine has: [__init__] and [load_board] build 9 rows of 9
    cells and three lists of 9 masks, and nothing changes a length. *)
Definition wf (s : engine) : Prop :=
  length (board s) = 9%nat /\
  Forall (fun row => length row = 9%nat) (board s) /\
  length (row_masks s) = 9%nat /\
  length (col_masks s) = 9%nat /\
  length (box_masks s) = 9%nat.

(** The grid and the three mask arrays, without the cancellation flag. *)
Definition grid (s : engine)
  : list (list Z) * list Z * list Z * list Z :=
  (board s, row_masks s, col_masks s, box_masks s).

(** The state [__init__] builds: every cell 0, every mask 0. *)
Definition fully_empty (s : engine) : Prop :=
  grid s = (repeat zeros9 9, zeros9, zeros9, zeros9).

Definition cells_in_range (s : engine) : Prop :=
  forall r c, (r < 9)%nat -> (c < 9)%nat -> 0 <= cell s r c <= 9.

(** Bit [v-1] of a unit's mask is set iff some cell of the unit holds [v]. *)
Definition masks_consistent (s : engine) : Prop :=
  (forall r v, (r < 9)%nat -> 1 <= v ->
     (Z.testbit (row_mask s r) (v - 1) = true <->
      exists c, (c < 9)%nat /\ cell s r c = v)) /\
  (forall c v, (c < 9)%nat -> 1 <= v ->
     (Z.testbit (col_mask s c) (v - 1) = true <->
      exists r, (r < 9)%nat /\ cell s r c = v)) /\
  (forall b v, (b < 9)%nat -> 1 <= v ->
     (Z.testbit (box_mask s b) (v - 1) = true <->
      exists r c, (r < 9)%nat /\ (c < 9)%nat /\ box_index r c = b /\
                  cell s r c = v)).

(** Two cells of one row, column or box are peers. *)
Definition peers (r c r' c' : nat) : Prop :=
  r = r' \/ c = c' \/ box_index r c = box_index r' c'.

(** No digit occurs twice in a row, a column or a box. *)
Definition no_conflict (s : engine) : Prop :=
  forall r c r' c',
    (r < 9)%nat -> (c < 9)%nat -> (r' < 9)%nat -> (c' < 9)%nat ->
    cell s r c <> 0 -> cell s r c = cell s r' c' -> peers r c r' c' ->
    r = r' /\ c = c'.

Definition Inv (s : engine) : Prop :=
  wf s /\ cells_in_range s /\ masks_consistent s /\ no_conflict s.

(** The cells of the units, and the values a board holds there. *)
Definition row_cells (r : nat) : list (nat * nat) :=
  List.map (fun c => (r, c)) (range 9).
Definition col_cells (c : nat) : list (nat * nat) :=
  List.map (fun r => (r, c)) (range 9).
Definition box_cells (b : nat) : list (nat * nat) :=
  list_prod (seq (3 * (b / 3)) 3) (seq (3 * (b mod 3)) 3).

Definition values_at (g : list (list Z)) (ps : list (nat * nat)) : list Z :=
  List.map (fun '(r, c) => nth c (nth r g []) 0) ps.

(** A unit contains each digit 1..9 exactly once. *)
Definition each_digit_once (l : list Z) : Prop :=
  forall v, 1 <= v <= 9 -> count_occ Z.eq_dec l v = 1%nat.

(** Full Sudoku validity of a 9x9 grid. *)
Definition sudoku_valid (g : list (list Z)) : Prop :=
  (forall r c, (r < 9)%nat -> (c < 9)%nat ->
     1 <= nth c (nth r g []) 0 <= 9) /\
  (forall k, (k < 9)%nat ->
     each_digit_once (values_at g (row_cells k)) /\
     each_digit_once (values_at g (col_cells k)) /\
     each_digit_once (values_at g (box_cells k))).

Definition count_empty (s : engine) : nat :=
  list_sum (List.map (fun row => count_occ Z.eq_dec row 0) (board s)).

(** No cancellation is ever requested during a run. *)
Definition never_cancelled (env : nat -> bool) : Prop :=
  forall k, env k = false.

(** The clue a character stands for when [load_board] accepts it. *)
Definition clue_of (ch : char) : Z :=
  if isdigit ch && negb (ch =? ch_0)%N then
    match int ch with Some v => v | None => 0 end
  else 0.

(** An empty cell ([board == 0]) with no candidate. *)
Definition dead_cell (s : engine) (r c : nat) : Prop :=
  cell s r c = 0 /\ _get_candidates s r c = [].

Definition has_empty_cell (s : engine) : Prop :=
  exists r c, (r < 9)%nat /\ (c < 9)%nat /\ cell s r c = 0.

(** Row-major order of the scan. *)
Definition before (r c r' c' : nat) : Prop :=
  (r * 9 + c < r' * 9 + c')%nat.

(** The 81 cells in the order the nested [range(9)] loops visit them. *)
Definition all_cells : list (nat * nat) := list_prod (range 9) (range 9).

(** What a result of [_find_mrv_cell] is: an empty cell of the board together
    with its candidates. *)
Definition mrv_good (s : engine) (o : option mrv_cell) : Prop :=
  match o with
  | Some (r, c, cands) =>
      (r < 9)%nat /\ (c < 9)%nat /\ cell s r c = 0 /\
      cands = _get_candidates s r c
  | None => True
  end.

(** What a frame of the search guarantees about its result: fuel runs out
    only below the number of empty cells; a returned engine satisfies the
    invariant, as does every engine logged on the way; after [True] the board
    has no 0 left, after [False] grid and masks are as at entry. *)
Definition search_post (fuel : nat) (w : run) (res : option (bool * run))
  : Prop :=
  match res with
  | None => (fuel <= count_empty (self w))%nat
  | Some (b, w') =>
      Inv (self w') /\ Forall Inv (history w') /\
      (if b then check_solved (self w') = true
       else grid (self w') = grid (self w))
  end.

(** Decidable versions, for units and encodings that are checked by
    evaluation. *)
Definition cell_eqb (p q : nat * nat) : bool :=
  ((fst p =? fst q) && (snd p =? snd q))%nat.

Definition peersb (p q : nat * nat) : bool :=
  ((fst p =? fst q) || (snd p =? snd q)
   || (box_index (fst p) (snd p) =? box_index (fst q) (snd q)))%nat.

Fixpoint nodupb (ps : list (nat * nat)) : bool :=
  match ps with
  | [] => true
  | p :: t => negb (existsb (cell_eqb p) t) && nodupb t
  end.

(** A unit: nine distinct cells of the board, pairwise peers. *)
Definition unit_ok (ps : list (nat * nat)) : bool :=
  (length ps =? 9)%nat && nodupb ps
  && forallb (fun p => (fst p <? 9) && (snd p <? 9))%nat ps
  && forallb (fun p => forallb (peersb p) ps) ps.

(** The cell of the [k]-th character of a puzzle string. *)
Definition cell_of_index (k : nat) : nat * nat := (k / 9, k mod 9)%nat.

(** A fully solved, valid 81-digit encoding: 81 characters, each one of
    [1]..[9], and no two peers equal. *)
Definition is_solved_encoding (puzzle : str) : bool :=
  (length puzzle =? 81)%nat
  && forallb (fun ch => (49 <=? ch) && (ch <=? 57))%N puzzle
  && forallb
       (fun k =>
          forallb
            (fun k' =>
               (k =? k')%nat
               || negb (peersb (cell_of_index k) (cell_of_index k'))
               || negb (nth k puzzle 0 =? nth k' puzzle 0)%N)
            (range 81))
       (range 81).

(** The environment in which nobody calls [stop]. *)
Definition no_cancel : nat -> bool := fun _ => false.

(** The loop invariant of [load_board]: the first [a] characters have been
    processed. *)
Definition loaded_upto (puzzle : str) (a : nat) (s : engine) : Prop :=
  Inv s /\
  forall k, (k < 81)%nat ->
    cell s (k / 9) (k mod 9) =
    if (k <? a)%nat then clue_of (nth k puzzle 0%N) else 0.

(** The input cut at its [k]-th character, the rest read as empty cells. *)
Definition truncate_at (k : nat) (puzzle : str) : str :=
  firstn k puzzle ++ repeat ch_dot (81 - k).

(** The state [load_board] starts from after its length check. *)
Definition reset (s : engine) : engine :=
  mkEngine (repeat zeros9 9) zeros9 zeros9 zeros9 (stop_requested s).

(** The scan ends without a cell. *)
Definition scan_none (res : ctl (option mrv_cell) (option mrv_cell * nat))
  : Prop :=
  match res with
  | Next (best, _) => best = None
  | Exit r => r = None
  end.

(** Among the cells with index in [a, b) there is a dead one that the scan
    reaches: no empty cell before it has exactly one candidate. *)
Definition dead_between (s : engine) (a b : nat) : Prop :=
  exists k, (a <= k < b)%nat /\ dead_cell s (k / 9) (k mod 9) /\
    forall k', (a <= k' < k)%nat -> cell s (k' / 9) (k' mod 9) = 0 ->
      length (_get_candidates s (k' / 9) (k' mod 9)) <> 1%nat.

(** The same for the whole board, by row and column. *)
Definition scan_dead (s : engine) : Prop :=
  exists r c, (r < 9)%nat /\ (c < 9)%nat /\ dead_cell s r c /\
    forall r' c', (r' < 9)%nat -> (c' < 9)%nat -> before r' c' r c ->
      cell s r' c' = 0 -> length (_get_candidates s r' c') <> 1%nat.

(** The characters of the documented encoding. *)
Definition alphabet : str := of_string ".0123456789".

(** A puzzle loads and the search, left alone, solves it. *)
Definition solves_ok (puzzle : str) : bool :=
  match load_board init puzzle with
  | (s, Returned) =>
      match solve no_cancel s with
      | Some (true, _) => true
      | _ => false
      end
  | (_, Raised _) => false
  end.

(** ** Sample inputs *)

(** The solution of the first Easy puzzle, and the same with its first cell
    left open. *)
Definition solved_grid : str :=
  of_string "534678912672195348198342567859761423426853791713924856961537284287419635345286179".

Definition almost_solved : str :=
  of_string ".34678912672195348198342567859761423426853791713924856961537284287419635345286179".

(** Row 0 holds 1..8 and column 8 holds a 9: cell (0,8) is empty and has no
    candidate. *)
Definition dead_puzzle : str :=
  of_string "12345678." ++ of_string "........9" ++ repeat ch_dot 63.

(** Cell (0,0) has the single candidate 1; cell (8,8) further on is empty and
    has no candidate. *)
Definition single_before_dead : str :=
  of_string ".23456789" ++ repeat ch_dot 63 ++ of_string "23456781.".

(** Cells (0,7) and (0,8) both have the single candidate 9: the search places
    a 9, fails one level down and backtracks. *)
Definition unsolvable : str :=
  of_string "1234567.." ++ repeat ch_dot 18 ++ of_string ".......8."
  ++ repeat ch_dot 18 ++ of_string "........8" ++ repeat ch_dot 18.

(** A clue followed by a letter. *)
Definition clue_then_letter : str := of_string "1a" ++ repeat ch_dot 79.

(** ARABIC-INDIC DIGIT THREE (U+0663) and ARABIC-INDIC DIGIT ZERO (U+0660)
    in the first cell. *)
Definition arabic_three : str := 1635%N :: repeat ch_dot 80.
Definition arabic_zero : str := 1632%N :: repeat ch_dot 80.

(** [stop] is called between the second and the third read of the flag. *)
Definition cancel_at_2 : nat -> bool := fun k => (k =? 2)%nat.

(** ** Vocabulary for the further properties *)

(** [SudokuFrame._get_box_index] *)
Definition _get_box_index (r c : nat) : nat := (r / 3) * 3 + c / 3.

(** A character [load_board] lets through: a digit other than ['0'] that
    [int] reads as 1..9, or one of ['.'] and ['0']. *)
Definition char_ok (ch : char) : bool :=
  if isdigit ch && negb (ch =? ch_0)%N then
    match int ch with
    | Some v => (1 <=? v) && (v <=? 9)
    | None => false
    end
  else char_in ch [ch_dot; ch_0].

(** No clue of the string is repeated in its row, column or box. *)
Definition clues_conflict_free (puzzle : str) : Prop :=
  forall k k', (k < 81)%nat -> (k' < 81)%nat -> k <> k' ->
    peers (k / 9) (k mod 9) (k' / 9) (k' mod 9) ->
    clue_of (nth k puzzle 0%N) <> 0 ->
    clue_of (nth k puzzle 0%N) <> clue_of (nth k' puzzle 0%N).

(** The grid [g] keeps every digit the engine holds. *)
Definition extends (s : engine) (g : list (list Z)) : Prop :=
  forall r c, (r < 9)%nat -> (c < 9)%nat ->
    cell s r c <> 0 -> nth c (nth r g []) 0 = cell s r c.

(** What an error raised at character [k] says about the input. *)
Definition error_explained (puzzle : str) (k : nat) (e : ValueError) : Prop :=
  match e with
  | BadPuzzle => False
  | DuplicateRow v i =>
      i = (k / 9)%nat /\ clue_of (nth k puzzle 0%N) = v /\ 1 <= v <= 9 /\
      exists k', (k' < k)%nat /\ (k' / 9 = i)%nat /\
                 clue_of (nth k' puzzle 0%N) = v
  | DuplicateCol v j =>
      j = (k mod 9)%nat /\ clue_of (nth k puzzle 0%N) = v /\ 1 <= v <= 9 /\
      exists k', (k' < k)%nat /\ (k' mod 9 = j)%nat /\
                 clue_of (nth k' puzzle 0%N) = v
  | DuplicateBox v b =>
      b = box_index (k / 9) (k mod 9) /\
      clue_of (nth k puzzle 0%N) = v /\ 1 <= v <= 9 /\
      exists k', (k' < k)%nat /\ box_index (k' / 9) (k' mod 9) = b /\
                 clue_of (nth k' puzzle 0%N) = v
  | InvalidCharacter ch =>
      ch = nth k puzzle 0%N /\ char_in ch alphabet = false
  | IntLiteral ch =>
      ch = nth k puzzle 0%N /\ isdigit ch = true /\ int ch = None
  | DigitRange v => int (nth k puzzle 0%N) = Some v /\ v = 0
  end.

(** Two 5s in box 0, in different rows and columns. *)
Definition box_clash : str :=
  of_string "5........" ++ of_string ".5......." ++ repeat ch_dot 63.

(** The loop over the candidates in [_solve_recursive], lines 146-166, on
    its own: [_solve_recursive (S fuel)] runs it with the fuel [fuel] for the
    recursive calls. *)
Definition search_loop (fuel : nat) (env : nat -> bool) (r c : nat)
  (vs : list Z) (w : run) : option (bool * run) :=
  match
    for_in vs
      (fun v w2 =>
         let (stopped', w3) := poll env w2 in
         if stopped' then Exit (Some (false, w3))
         else
           let w4 := mutate w3 (place (self w3) r c v) in
           match _solve_recursive fuel env w4 with
           | None => Exit None
           | Some (true, w5) => Exit (Some (true, w5))
           | Some (false, w5) => Next (mutate w5 (unplace (self w5) r c v))
           end)
      w
  with
  | Next w' => Some (false, w')
  | Exit res => res
  end.

(** What the reads of the cancellation flag made between [w] and the result
    say: the read counter only grows; if the flag is clear at the end, it was
    clear at the start and no read in between met a call of [stop]; and
    [True] is only returned with the flag clear. *)
Definition flag_post (env : nat -> bool) (w : run)
  (res : option (bool * run)) : Prop :=
  match res with
  | None => True
  | Some (b, w') =>
      (polls w <= polls w')%nat /\
      (stop_requested (self w') = false ->
       stop_requested (self w) = false /\
       forall k, (polls w <= k < polls w')%nat -> env k = false) /\
      (b = true -> stop_requested (self w') = false)
  end.

(** Every digit of [s] is still there in [s']. *)
Definition keeps_digits (s s' : engine) : Prop :=
  forall r c, (r < 9)%nat -> (c < 9)%nat ->
    cell s r c <> 0 -> cell s' r c = cell s r c.

(** No valid grid completes the digits of [s]. *)
Definition no_solution (s : engine) : Prop :=
  forall g, sudoku_valid g -> extends s g -> False.

(** Row 0 leaves only 9 for its last two cells. *)
Definition unsolvable_state : engine := fst (load_board init unsolvable).

(** The cell of index [k] is a faithful MRV pick among the cells of index
    below [limit]: it is empty, [cands] are its candidates and there is at
    least one; every empty cell before it has strictly more candidates; and
    unless it has a single candidate, no empty cell below [limit] has
    fewer. *)
Definition mrv_pick (s : engine) (k : nat) (cands : list Z) (limit : nat)
  : Prop :=
  cell s (k / 9) (k mod 9) = 0 /\
  cands = _get_candidates s (k / 9) (k mod 9) /\
  (1 <= length cands)%nat /\
  (forall k', (k' < k)%nat -> cell s (k' / 9) (k' mod 9) = 0 ->
     (length cands < length (_get_candidates s (k' / 9) (k' mod 9)))%nat) /\
  ((2 <= length cands)%nat ->
   forall k', (k' < limit)%nat -> cell s (k' / 9) (k' mod 9) = 0 ->
     (length cands <= length (_get_candidates s (k' / 9) (k' mod 9)))%nat).

(** The accumulator of the scan after the cells of index below [a]. *)
Definition mrv_acc_ok (s : engine) (a : nat) (acc : option mrv_cell * nat)
  : Prop :=
  match acc with
  | (None, bl) =>
      bl = 10%nat /\
      forall k', (k' < a)%nat -> cell s (k' / 9) (k' mod 9) <> 0
  | (Some (r, c, cands), bl) =>
      exists k, (k < a)%nat /\ r = (k / 9)%nat /\ c = (k mod 9)%nat /\
                bl = length cands /\ (2 <= bl)%nat /\ mrv_pick s k cands a
  end.

(** What the scan has produced when it stops. *)
Definition mrv_result_ok (s : engine)
  (res : ctl (option mrv_cell) (option mrv_cell * nat)) : Prop :=
  match res with
  | Next acc => mrv_acc_ok s 81 acc
  | Exit None => True
  | Exit (Some (r, c, cands)) =>
      exists k, (k < 81)%nat /\ r = (k / 9)%nat /\ c = (k mod 9)%nat /\
                mrv_pick s k cands 81
  end.

(** The engines a user of [FastSudokuSolver] can hold between calls: the one
    [__init__] builds, and what [load_board] (whether it returns or raises),
    [solve] and [stop] leave behind. *)
Inductive reachable : engine -> Prop :=
| reach_init : reachable init
| reach_load s puzzle :
    reachable s -> reachable (fst (load_board s puzzle))
| reach_solve s env b w :
    reachable s -> solve env s = Some (b, w) -> reachable (self w)
| reach_stop s : reachable s -> reachable (stop s).

(** One clue, in the top left corner. *)
Definition one_clue : str := of_string "1" ++ repeat ch_dot 80.

(** ** The timer label *)

(** The label is ASCII and is kept as a Rocq string.  [str(n)] for a natural
    number [n]: its decimal digits, without leading zeros. *)
Definition decimal (n : N) : String.string :=
  DecimalString.NilEmpty.string_of_uint (N.to_uint n).

Fixpoint zeros (k : nat) : String.string :=
  match k with
  | O => ""%string
  | S k => String.append "0" (zeros k)
  end.

(** [format(n, "02d")]: the sign, then zeros up to a total width of two, then
    the digits of [abs(n)]. *)
Definition format_02d (n : Z) : String.string :=
  let sign := if n <? 0 then "-"%string else ""%string in
  let digits := decimal (Z.abs_N n) in
  String.append sign
    (String.append
       (zeros (2 - String.length sign - String.length digits)) digits).

(** [SudokuFrame._format_time]; [//] and [%] are Python's floor division and
    its remainder, which are [Z.div] and [Z.modulo]. *)
Definition _format_time (seconds : Z) : String.string :=
  let mins := seconds / 60 in
  let secs := seconds mod 60 in
  String.append (format_02d mins) (String.append ":" (format_02d secs)).

(** The shape the docstring announces: two digits, a colon, two digits. *)
Definition digit_char (d : Z) : Ascii.ascii :=
  Ascii.ascii_of_N (48 + Z.to_N d).

Definition two_digits (n : Z) : String.string :=
  String.String (digit_char (n / 10))
    (String.String (digit_char (n mod 10)) String.EmptyString).

Definition mm_ss (m s : Z) : String.string :=
  String.append (two_digits m) (String.append ":" (two_digits s)).

Definition colon : Ascii.ascii := Ascii.ascii_of_N 58.

Fixpoint no_colon (s : String.string) : bool :=
  match s with
  | String.EmptyString => true
  | String.String c t => negb (Ascii.eqb c colon) && no_colon t
  end.

(** ** Bits *)

Lemma bit_of_pow2 v : bit_of v = 2 ^ (v - 1).
Proof. unfold bit_of. apply Z.shiftl_1_l. Qed.

Lemma testbit_bit_of v k :
  1 <= v -> Z.testbit (bit_of v) k = (v - 1 =? k).
Proof.
  intros Hv. rewrite bit_of_pow2. apply Z.pow2_bits_eqb. lia.
Qed.

Lemma truthy_land_bit m v :
  1 <= v -> truthy (Z.land m (bit_of v)) = Z.testbit m (v - 1).
Proof.
  intros Hv. unfold truthy.
  destruct (Z.testbit m (v - 1)) eqn:Hb.
  - destruct (Z.eqb_spec (Z.land m (bit_of v)) 0) as [E|E]; [|reflexivity].
    exfalso.
    assert (Z.testbit (Z.land m (bit_of v)) (v - 1) = true) as T.
    { rewrite Z.land_spec, Hb, testbit_bit_of, Z.eqb_refl by lia. reflexivity. }
    rewrite E, Z.bits_0 in T. discriminate.
  - replace (Z.land m (bit_of v)) with 0; [reflexivity|].
    symmetry. apply Z.bits_inj'. intros k Hk.
    rewrite Z.land_spec, Z.bits_0, testbit_bit_of by lia.
    destruct (Z.eqb_spec (v - 1) k); [subst; rewrite Hb|]; auto with bool.
Qed.

Lemma testbit_lor_bit m v u :
  1 <= v -> 1 <= u ->
  Z.testbit (Z.lor m (bit_of v)) (u - 1) = Z.testbit m (u - 1) || (v =? u).
Proof.
  intros Hv Hu. rewrite Z.lor_spec, testbit_bit_of by lia.
  f_equal. destruct (Z.eqb_spec v u), (Z.eqb_spec (v - 1) (u - 1)); auto; lia.
Qed.

Lemma clear_set_bit m v :
  1 <= v -> Z.testbit m (v - 1) = false ->
  Z.land (Z.lor m (bit_of v)) (Z.lnot (bit_of v)) = m.
Proof.
  intros Hv Hb. apply Z.bits_inj'. intros k Hk.
  rewrite Z.land_spec, Z.lor_spec, Z.lnot_spec, testbit_bit_of by lia.
  destruct (Z.eqb_spec (v - 1) k) as [E|E]; [subst k; rewrite Hb|]; simpl.
  - reflexivity.
  - rewrite orb_false_r, andb_true_r. reflexivity.
Qed.

(** ** Lists *)

Lemma length_upd {A} (l : list A) i x : length (upd l i x) = length l.
Proof.
  revert i; induction l as [|h t IH]; intros [|i]; simpl; auto.
Qed.

Lemma nth_upd {A} (l : list A) i j x d :
  nth j (upd l i x) d =
  if (j =? i)%nat && (i <? length l)%nat then x else nth j l d.
Proof.
  revert i j; induction l as [|h t IH]; intros i j.
  - destruct i, j; simpl; rewrite ?andb_false_r; reflexivity.
  - destruct i, j; simpl; try reflexivity.
    rewrite IH. reflexivity.
Qed.

Lemma nth_upd_same {A} (l : list A) i x d :
  (i < length l)%nat -> nth i (upd l i x) d = x.
Proof.
  intros H. rewrite nth_upd, Nat.eqb_refl.
  apply Nat.ltb_lt in H. rewrite H. reflexivity.
Qed.

Lemma nth_upd_other {A} (l : list A) i j x d :
  j <> i -> nth j (upd l i x) d = nth j l d.
Proof.
  intros H. rewrite nth_upd.
  apply Nat.eqb_neq in H. rewrite H. reflexivity.
Qed.

Lemma upd_upd {A} (l : list A) i x y : upd (upd l i x) i y = upd l i y.
Proof.
  revert i; induction l as [|h t IH]; intros [|i]; simpl; auto.
  rewrite IH. reflexivity.
Qed.

Lemma upd_nth {A} (l : list A) i d : upd l i (nth i l d) = l.
Proof.
  revert i; induction l as [|h t IH]; intros [|i]; simpl; auto.
  rewrite IH. reflexivity.
Qed.

(** ** Loops *)

Lemma for_in_app {A R S} (xs ys : list A) (body : A -> S -> ctl R S) s :
  for_in (xs ++ ys) body s =
  match for_in xs body s with
  | Next s' => for_in ys body s'
  | Exit r => Exit r
  end.
Proof.
  revert s; induction xs as [|x xs IH]; intros s; simpl; [reflexivity|].
  destruct (body x s); auto.
Qed.

Lemma for_in_map {A B R S} (f : A -> B) xs (body : B -> S -> ctl R S) s :
  for_in (List.map f xs) body s = for_in xs (fun x => body (f x)) s.
Proof.
  revert s; induction xs as [|x xs IH]; intros s; simpl; [reflexivity|].
  destruct (body (f x) s); auto.
Qed.

Lemma for_in_ext {A R S} xs (body body' : A -> S -> ctl R S) s :
  (forall x t, In x xs -> body x t = body' x t) ->
  for_in xs body s = for_in xs body' s.
Proof.
  revert s; induction xs as [|x xs IH]; intros s H; simpl; [reflexivity|].
  rewrite <- (H x s) by (left; reflexivity).
  destruct (body x s); auto. apply IH. intros; apply H; right; assumption.
Qed.

(** Two nested loops visit the cells of the product list in order. *)
Lemma for_in_nested {A B R S} (xs : list A) (ys : list B)
  (body : A -> B -> S -> ctl R S) s :
  for_in xs (fun i t => for_in ys (fun j t' => body i j t') t) s =
  for_in (list_prod xs ys) (fun p t => body (fst p) (snd p) t) s.
Proof.
  revert s; induction xs as [|x xs IH]; intros s; simpl; [reflexivity|].
  rewrite for_in_app, for_in_map. simpl.
  destruct (for_in ys (fun j t' => body x j t') s); auto.
Qed.

Lemma in_all_cells r c :
  In (r, c) all_cells <-> (r < 9)%nat /\ (c < 9)%nat.
Proof.
  unfold all_cells, range. rewrite in_prod_iff, !in_seq. lia.
Qed.

Lemma box_index_lt r c : (r < 9)%nat -> (c < 9)%nat -> (box_index r c < 9)%nat.
Proof.
  intros Hr Hc. unfold box_index.
  assert (r / 3 < 3)%nat by (apply Nat.Div0.div_lt_upper_bound; lia).
  assert (c / 3 < 3)%nat by (apply Nat.Div0.div_lt_upper_bound; lia).
  lia.
Qed.

(** ** Placing and removing a digit *)

Lemma row_length s r :
  wf s -> (r < 9)%nat -> length (nth r (board s) []) = 9%nat.
Proof.
  intros (Hb & Hr & _) Hlt.
  rewrite Forall_forall in Hr. apply Hr, nth_In. lia.
Qed.

Lemma wf_place s r c v : wf s -> wf (place s r c v).
Proof.
  intros (Hb & Hr & H1 & H2 & H3). unfold wf, place; simpl.
  rewrite !length_upd. repeat split; auto.
  rewrite Forall_forall in *. intros row Hin.
  destruct (In_nth _ _ [] Hin) as (k & Hk & <-).
  rewrite length_upd in Hk. rewrite nth_upd.
  destruct ((k =? r)%nat && (r <? length (board s))%nat) eqn:E.
  - rewrite length_upd. apply Hr, nth_In.
    apply andb_prop in E as [_ E]. apply Nat.ltb_lt in E. exact E.
  - apply Hr, nth_In. exact Hk.
Qed.

Lemma wf_unplace s r c v : wf s -> wf (unplace s r c v).
Proof.
  intros (Hb & Hr & H1 & H2 & H3). unfold wf, unplace; simpl.
  rewrite !length_upd. repeat split; auto.
  rewrite Forall_forall in *. intros row Hin.
  destruct (In_nth _ _ [] Hin) as (k & Hk & <-).
  rewrite length_upd in Hk. rewrite nth_upd.
  destruct ((k =? r)%nat && (r <? length (board s))%nat) eqn:E.
  - rewrite length_upd. apply Hr, nth_In.
    apply andb_prop in E as [_ E]. apply Nat.ltb_lt in E. exact E.
  - apply Hr, nth_In. exact Hk.
Qed.

Lemma cell_place s r c v r' c' :
  wf s -> (r < 9)%nat -> (c < 9)%nat ->
  cell (place s r c v) r' c' =
  if (r' =? r)%nat && (c' =? c)%nat then v else cell s r' c'.
Proof.
  intros Hwf Hr Hc. pose proof (row_length s r Hwf Hr) as Hlen.
  destruct Hwf as (Hb & _). unfold cell, place; simpl.
  rewrite nth_upd, Hb.
  replace (r <? 9)%nat with true by (symmetry; apply Nat.ltb_lt; exact Hr).
  rewrite andb_true_r.
  destruct (Nat.eqb_spec r' r) as [->|Hne]; simpl; [|reflexivity].
  rewrite nth_upd, Hlen.
  replace (c <? 9)%nat with true by (symmetry; apply Nat.ltb_lt; exact Hc).
  rewrite andb_true_r. reflexivity.
Qed.

Lemma row_mask_place s r c v r' :
  wf s -> (r < 9)%nat ->
  row_mask (place s r c v) r' =
  if (r' =? r)%nat then Z.lor (row_mask s r) (bit_of v) else row_mask s r'.
Proof.
  intros (_ & _ & H & _) Hr. unfold row_mask at 1, place; simpl.
  rewrite nth_upd, H.
  replace (r <? 9)%nat with true by (symmetry; apply Nat.ltb_lt; exact Hr).
  rewrite andb_true_r. reflexivity.
Qed.

Lemma col_mask_place s r c v c' :
  wf s -> (c < 9)%nat ->
  col_mask (place s r c v) c' =
  if (c' =? c)%nat then Z.lor (col_mask s c) (bit_of v) else col_mask s c'.
Proof.
  intros (_ & _ & _ & H & _) Hc. unfold col_mask at 1, place; simpl.
  rewrite nth_upd, H.
  replace (c <? 9)%nat with true by (symmetry; apply Nat.ltb_lt; exact Hc).
  rewrite andb_true_r. reflexivity.
Qed.

Lemma box_mask_place s r c v b :
  wf s -> (r < 9)%nat -> (c < 9)%nat ->
  box_mask (place s r c v) b =
  if (b =? box_index r c)%nat
  then Z.lor (box_mask s (box_index r c)) (bit_of v) else box_mask s b.
Proof.
  intros (_ & _ & _ & _ & H) Hr Hc. unfold box_mask at 1, place; simpl.
  rewrite nth_upd, H. pose proof (box_index_lt r c Hr Hc) as Hlt.
  replace (box_index r c <? 9)%nat with true
    by (symmetry; apply Nat.ltb_lt; exact Hlt).
  rewrite andb_true_r. reflexivity.
Qed.

(** Removing a digit that was placed on an empty cell, where it was a
    candidate, gives back the grid and masks as they were. *)
Lemma unplace_place s r c v :
  wf s -> (r < 9)%nat -> (c < 9)%nat -> 1 <= v ->
  cell s r c = 0 ->
  Z.testbit (row_mask s r) (v - 1) = false ->
  Z.testbit (col_mask s c) (v - 1) = false ->
  Z.testbit (box_mask s (box_index r c)) (v - 1) = false ->
  unplace (place s r c v) r c v = s.
Proof.
  intros Hwf Hr Hc Hv Hcell Hrow Hcol Hbox.
  pose proof (box_index_lt r c Hr Hc) as Hb.
  pose proof (row_length s r Hwf Hr) as Hlen.
  destruct Hwf as (Hbl & _ & Hrl & Hcl & Hxl).
  unfold unplace.
  assert (row_mask (place s r c v) r = Z.lor (row_mask s r) (bit_of v)) as ->.
  { unfold row_mask, place; simpl. apply nth_upd_same. lia. }
  assert (col_mask (place s r c v) c = Z.lor (col_mask s c) (bit_of v)) as ->.
  { unfold col_mask, place; simpl. apply nth_upd_same. lia. }
  assert (box_mask (place s r c v) (box_index r c)
          = Z.lor (box_mask s (box_index r c)) (bit_of v)) as ->.
  { unfold box_mask, place; simpl. apply nth_upd_same. lia. }
  rewrite !clear_set_bit by assumption.
  unfold place; simpl. rewrite !upd_upd.
  rewrite nth_upd_same by lia. rewrite upd_upd.
  unfold row_mask, col_mask, box_mask. rewrite !upd_nth.
  unfold cell in Hcell. rewrite <- Hcell at 1. rewrite !upd_nth.
  destruct s; reflexivity.
Qed.

(** ** The cancellation flag does not touch the grid *)

Lemma grid_set_stop s b : grid (set_stop_requested s b) = grid s.
Proof. reflexivity. Qed.

Lemma grid_eq_set_stop s s' :
  grid s' = grid s -> s' = set_stop_requested s (stop_requested s').
Proof.
  destruct s, s'; unfold grid; simpl. intros H; inversion H; reflexivity.
Qed.

Lemma grid_place s s' r c v :
  grid s' = grid s -> grid (place s' r c v) = grid (place s r c v).
Proof.
  intros H. rewrite (grid_eq_set_stop _ _ H). reflexivity.
Qed.

Lemma grid_unplace s s' r c v :
  grid s' = grid s -> grid (unplace s' r c v) = grid (unplace s r c v).
Proof.
  intros H. rewrite (grid_eq_set_stop _ _ H). reflexivity.
Qed.

Lemma candidates_set_stop s b r c :
  _get_candidates (set_stop_requested s b) r c = _get_candidates s r c.
Proof. reflexivity. Qed.

Lemma mrv_step_set_stop s b i j acc :
  mrv_step (set_stop_requested s b) i j acc = mrv_step s i j acc.
Proof. reflexivity. Qed.

Lemma find_mrv_set_stop s b :
  _find_mrv_cell (set_stop_requested s b) = _find_mrv_cell s.
Proof.
  unfold _find_mrv_cell. rewrite !for_in_nested. reflexivity.
Qed.

Lemma check_solved_set_stop s b :
  check_solved (set_stop_requested s b) = check_solved s.
Proof.
  unfold check_solved. rewrite !for_in_nested. reflexivity.
Qed.

Lemma Inv_set_stop s b : Inv s -> Inv (set_stop_requested s b).
Proof. intros H. exact H. Qed.

Lemma Inv_grid s s' : grid s' = grid s -> Inv s -> Inv s'.
Proof.
  intros H HI. rewrite (grid_eq_set_stop _ _ H). apply Inv_set_stop, HI.
Qed.

Lemma count_empty_grid s s' :
  grid s' = grid s -> count_empty s' = count_empty s.
Proof.
  intros H. rewrite (grid_eq_set_stop _ _ H). reflexivity.
Qed.

(** ** Candidates *)

Lemma in_range_Z_1_10 v : In v (range_Z 1 10) <-> 1 <= v <= 9.
Proof.
  unfold range_Z. rewrite in_map_iff. split.
  - intros (n & <- & Hn). apply in_seq in Hn. lia.
  - intros Hv. exists (Z.to_nat v). split; [lia|]. apply in_seq. lia.
Qed.

Lemma in_candidates s r c v :
  In v (_get_candidates s r c) <->
  cell s r c = 0 /\ 1 <= v <= 9 /\
  Z.testbit (row_mask s r) (v - 1) = false /\
  Z.testbit (col_mask s c) (v - 1) = false /\
  Z.testbit (box_mask s (box_index r c)) (v - 1) = false.
Proof.
  unfold _get_candidates.
  destruct (Z.eqb_spec (cell s r c) 0) as [E|E]; cbv beta iota zeta; simpl negb;
    cbv iota.
  - rewrite filter_In, in_range_Z_1_10. split.
    + intros (Hv & Hb). rewrite truthy_land_bit in Hb by lia.
      apply negb_true_iff in Hb. rewrite !Z.lor_spec in Hb.
      apply orb_false_iff in Hb as [Hb H3].
      apply orb_false_iff in Hb as [H1 H2]. auto.
    + intros (_ & Hv & H1 & H2 & H3). split; [exact Hv|].
      rewrite truthy_land_bit by lia.
      rewrite !Z.lor_spec, H1, H2, H3. reflexivity.
  - split; [intros []|]. intros (H & _). contradiction.
Qed.

(** ** Placing a candidate preserves the invariant *)

Lemma cell_place_same s r c v :
  wf s -> (r < 9)%nat -> (c < 9)%nat -> cell (place s r c v) r c = v.
Proof.
  intros. rewrite cell_place by assumption. rewrite !Nat.eqb_refl. reflexivity.
Qed.

Lemma cell_place_other s r c v r' c' :
  wf s -> (r < 9)%nat -> (c < 9)%nat -> (r', c') <> (r, c) ->
  cell (place s r c v) r' c' = cell s r' c'.
Proof.
  intros Hwf Hr Hc Hne. rewrite cell_place by assumption.
  destruct (Nat.eqb_spec r' r), (Nat.eqb_spec c' c); simpl; try reflexivity.
  subst. contradiction Hne. reflexivity.
Qed.

Lemma cells_in_range_place s r c v :
  wf s -> (r < 9)%nat -> (c < 9)%nat -> 1 <= v <= 9 ->
  cells_in_range s -> cells_in_range (place s r c v).
Proof.
  intros Hwf Hr Hc Hv H r' c' Hr' Hc'. rewrite cell_place by assumption.
  destruct ((r' =? r)%nat && (c' =? c)%nat); [lia|auto].
Qed.

Lemma masks_consistent_place s r c v :
  wf s -> (r < 9)%nat -> (c < 9)%nat -> 1 <= v ->
  cell s r c = 0 ->
  masks_consistent s -> masks_consistent (place s r c v).
Proof.
  intros Hwf Hr Hc Hv Hcell (HR & HC & HB).
  assert (forall r' c' u, 1 <= u -> cell s r' c' = u -> (r', c') <> (r, c))
    as Hfresh.
  { intros r' c' u Hu E Heq. inversion Heq; subst. lia. }
  split; [|split]; intros x u Hx Hu; split; revert x u Hx Hu.
  - (* rows *)
    intros r' u Hr' Hu. rewrite row_mask_place by assumption.
    destruct (Nat.eqb_spec r' r) as [->|Hne].
    + rewrite testbit_lor_bit, orb_true_iff, HR by assumption.
      intros [(c' & Hc' & E)|E].
      * exists c'. split; [exact Hc'|].
        rewrite cell_place_other; eauto.
      * apply Z.eqb_eq in E. subst u. exists c. split; [exact Hc|].
        apply cell_place_same; assumption.
    + rewrite HR by assumption. intros (c' & Hc' & E). exists c'.
      split; [exact Hc'|]. rewrite cell_place_other; auto.
      intros Heq; inversion Heq; contradiction.
  - intros r' u Hr' Hu. rewrite row_mask_place by assumption.
    intros (c' & Hc' & E). rewrite cell_place in E by assumption.
    destruct (Nat.eqb_spec r' r) as [->|Hne]; simpl in E.
    + rewrite testbit_lor_bit, orb_true_iff by assumption.
      destruct (Nat.eqb_spec c' c) as [->|Hne'].
      * right. apply Z.eqb_eq. exact E.
      * left. apply HR; eauto.
    + apply HR; eauto.
  - (* columns *)
    intros c' u Hc' Hu. rewrite col_mask_place by assumption.
    destruct (Nat.eqb_spec c' c) as [->|Hne].
    + rewrite testbit_lor_bit, orb_true_iff, HC by assumption.
      intros [(r' & Hr' & E)|E].
      * exists r'. split; [exact Hr'|].
        rewrite cell_place_other; eauto.
      * apply Z.eqb_eq in E. subst u. exists r. split; [exact Hr|].
        apply cell_place_same; assumption.
    + rewrite HC by assumption. intros (r' & Hr' & E). exists r'.
      split; [exact Hr'|]. rewrite cell_place_other; auto.
      intros Heq; inversion Heq; contradiction.
  - intros c' u Hc' Hu. rewrite col_mask_place by assumption.
    intros (r' & Hr' & E). rewrite cell_place in E by assumption.
    destruct (Nat.eqb_spec c' c) as [->|Hne]; simpl in E.
    + rewrite testbit_lor_bit, orb_true_iff by assumption.
      destruct (Nat.eqb_spec r' r) as [->|Hne'].
      * right. apply Z.eqb_eq. exact E.
      * left. apply HC; eauto.
    + rewrite andb_false_r in E. apply HC; eauto.
  - (* boxes *)
    intros b u Hb Hu. rewrite box_mask_place by assumption.
    destruct (Nat.eqb_spec b (box_index r c)) as [->|Hne].
    + rewrite testbit_lor_bit, orb_true_iff, HB by assumption.
      intros [(r' & c' & Hr' & Hc' & Hbx & E)|E].
      * exists r', c'. repeat split; try assumption.
        rewrite cell_place_other; eauto.
      * apply Z.eqb_eq in E. subst u. exists r, c.
        repeat split; try assumption.
        apply cell_place_same; assumption.
    + rewrite HB by assumption. intros (r' & c' & Hr' & Hc' & Hbx & E).
      exists r', c'. repeat split; try assumption.
      rewrite cell_place_other; auto.
      intros Heq; inversion Heq; subst; contradiction.
  - intros b u Hb Hu. rewrite box_mask_place by assumption.
    intros (r' & c' & Hr' & Hc' & Hbx & E).
    rewrite cell_place in E by assumption.
    destruct (Nat.eqb_spec r' r) as [->|Hne1];
      destruct (Nat.eqb_spec c' c) as [->|Hne2]; simpl in E.
    + subst b. rewrite Nat.eqb_refl.
      rewrite testbit_lor_bit, orb_true_iff by assumption.
      right. apply Z.eqb_eq. exact E.
    + destruct (Nat.eqb_spec b (box_index r c)) as [Eb|Eb].
      * rewrite testbit_lor_bit, orb_true_iff by assumption.
        left. apply HB; [apply box_index_lt; assumption|assumption|].
        exists r, c'. rewrite Eb in Hbx. auto.
      * apply HB; eauto 8.
    + destruct (Nat.eqb_spec b (box_index r c)) as [Eb|Eb].
      * rewrite testbit_lor_bit, orb_true_iff by assumption.
        left. apply HB; [apply box_index_lt; assumption|assumption|].
        exists r', c. rewrite Eb in Hbx. auto.
      * apply HB; eauto 8.
    + destruct (Nat.eqb_spec b (box_index r c)) as [Eb|Eb].
      * rewrite testbit_lor_bit, orb_true_iff by assumption.
        left. apply HB; [apply box_index_lt; assumption|assumption|].
        exists r', c'. rewrite Eb in Hbx. auto.
      * apply HB; eauto 8.
Qed.

Lemma candidate_no_peer s r c v r' c' :
  (r < 9)%nat -> (c < 9)%nat -> (r' < 9)%nat -> (c' < 9)%nat -> 1 <= v ->
  masks_consistent s ->
  Z.testbit (row_mask s r) (v - 1) = false ->
  Z.testbit (col_mask s c) (v - 1) = false ->
  Z.testbit (box_mask s (box_index r c)) (v - 1) = false ->
  cell s r' c' = v -> peers r c r' c' -> False.
Proof.
  intros Hr Hc Hr' Hc' Hv (HR & HC & HB) H1 H2 H3 E [P|[P|P]].
  - subst r'. assert (Z.testbit (row_mask s r) (v - 1) = true) as T
      by (apply HR; eauto). congruence.
  - subst c'. assert (Z.testbit (col_mask s c) (v - 1) = true) as T
      by (apply HC; eauto). congruence.
  - assert (Z.testbit (box_mask s (box_index r c)) (v - 1) = true) as T.
    { apply HB; [apply box_index_lt; assumption|assumption|].
      exists r', c'. auto. }
    congruence.
Qed.

Lemma peers_sym r c r' c' : peers r c r' c' -> peers r' c' r c.
Proof. unfold peers. intuition auto. Qed.

Lemma no_conflict_place s r c v :
  wf s -> (r < 9)%nat -> (c < 9)%nat -> 1 <= v ->
  masks_consistent s ->
  Z.testbit (row_mask s r) (v - 1) = false ->
  Z.testbit (col_mask s c) (v - 1) = false ->
  Z.testbit (box_mask s (box_index r c)) (v - 1) = false ->
  no_conflict s -> no_conflict (place s r c v).
Proof.
  intros Hwf Hr Hc Hv HM H1 H2 H3 HN r1 c1 r2 c2 Hr1 Hc1 Hr2 Hc2 Hnz Heq Hp.
  rewrite cell_place in Hnz by assumption.
  rewrite !cell_place in Heq by assumption.
  destruct (Nat.eqb_spec r1 r) as [->|N1]; destruct (Nat.eqb_spec c1 c) as [->|N1'];
    destruct (Nat.eqb_spec r2 r) as [->|N2]; destruct (Nat.eqb_spec c2 c) as [->|N2'];
    simpl in Hnz, Heq; auto;
    try (exfalso; symmetry in Heq;
         apply (candidate_no_peer s r c v _ _ Hr Hc Hr2 Hc2 Hv HM H1 H2 H3 Heq);
         exact Hp);
    try (exfalso;
         apply (candidate_no_peer s r c v _ _ Hr Hc Hr1 Hc1 Hv HM H1 H2 H3 Heq);
         apply peers_sym; exact Hp).
Qed.

Lemma Inv_place s r c v :
  Inv s -> (r < 9)%nat -> (c < 9)%nat ->
  In v (_get_candidates s r c) -> Inv (place s r c v).
Proof.
  intros (Hwf & Hrg & HM & HN) Hr Hc Hin.
  apply in_candidates in Hin as (Hcell & Hv & H1 & H2 & H3).
  split; [apply wf_place; exact Hwf|].
  split; [apply cells_in_range_place; auto|].
  split; [apply masks_consistent_place; auto; lia|].
  apply no_conflict_place; auto; lia.
Qed.

(** ** What [_find_mrv_cell] returns *)

Lemma mrv_scan_good s ps :
  (forall p, In p ps -> In p all_cells) ->
  forall best bl, mrv_good s best ->
  match for_in ps (fun p acc => mrv_step s (fst p) (snd p) acc) (best, bl) with
  | Next (b, _) => mrv_good s b
  | Exit r => mrv_good s r
  end.
Proof.
  induction ps as [|[i j] ps IH]; intros Hin best bl Hg; simpl; [exact Hg|].
  assert (In (i, j) all_cells) as Hij by (apply Hin; left; reflexivity).
  apply in_all_cells in Hij as [Hi Hj].
  assert (forall p, In p ps -> In p all_cells) as Hin'
    by (intros; apply Hin; right; assumption).
  destruct (Z.eqb_spec (cell s i j) 0) as [E|E]; [|apply IH; assumption].
  destruct (_get_candidates s i j) as [|v0 cs] eqn:Ec; [exact I|].
  destruct (length (v0 :: cs) <? bl)%nat; [|apply IH; assumption].
  destruct (length (v0 :: cs) =? 1)%nat.
  - simpl. rewrite Ec. auto.
  - apply IH; [assumption|]. simpl. rewrite Ec. auto.
Qed.

Lemma find_mrv_some s r c cands :
  _find_mrv_cell s = Some (r, c, cands) ->
  (r < 9)%nat /\ (c < 9)%nat /\ cell s r c = 0 /\
  cands = _get_candidates s r c.
Proof.
  unfold _find_mrv_cell. rewrite for_in_nested. fold all_cells.
  pose proof (mrv_scan_good s all_cells (fun p H => H) None 10%nat I) as H.
  destruct (for_in all_cells _ (None, 10%nat)) as [[b n]|res];
    intros ->; exact H.
Qed.

(** ** Counting empty cells *)

Lemma count_occ_upd (l : list Z) i x :
  (i < length l)%nat -> nth i l 0 = 0 -> x <> 0 ->
  S (count_occ Z.eq_dec (upd l i x) 0) = count_occ Z.eq_dec l 0.
Proof.
  revert i; induction l as [|h t IH]; intros [|i] Hlen Hnth Hx; simpl in *;
    try lia.
  - subst h. destruct (Z.eq_dec x 0); [contradiction|].
    destruct (Z.eq_dec 0 0); [reflexivity|contradiction].
  - destruct (Z.eq_dec h 0); rewrite <- (IH i); auto; lia.
Qed.

Lemma list_sum_map_upd {A} (f : A -> nat) (l : list A) i x d :
  (i < length l)%nat -> S (f x) = f (nth i l d) ->
  S (list_sum (List.map f (upd l i x))) = list_sum (List.map f l).
Proof.
  revert i; induction l as [|h t IH]; intros [|i] Hlen Hf; simpl in *; try lia.
  rewrite <- (IH i); auto; lia.
Qed.

Lemma count_empty_place s r c v :
  wf s -> (r < 9)%nat -> (c < 9)%nat -> cell s r c = 0 -> v <> 0 ->
  S (count_empty (place s r c v)) = count_empty s.
Proof.
  intros Hwf Hr Hc Hcell Hv. pose proof (row_length s r Hwf Hr) as Hlen.
  destruct Hwf as (Hb & _). unfold count_empty, place; simpl.
  apply list_sum_map_upd with (d := []); [lia|].
  apply count_occ_upd; [lia|exact Hcell|exact Hv].
Qed.

Lemma list_sum_bound (l : list nat) n :
  Forall (fun x => x <= n)%nat l -> (list_sum l <= length l * n)%nat.
Proof.
  induction 1; simpl; lia.
Qed.

Lemma count_empty_le_81 s : wf s -> (count_empty s <= 81)%nat.
Proof.
  intros (Hb & Hr & _). unfold count_empty.
  change 81%nat with (9 * 9)%nat. rewrite <- Hb at 1.
  rewrite <- (length_map (fun row => count_occ Z.eq_dec row 0) (board s)).
  apply list_sum_bound. rewrite Forall_map.
  eapply Forall_impl; [|exact Hr].
  intros row Hrow; simpl. rewrite <- Hrow. apply count_occ_bound.
Qed.

(** ** The search frame by frame *)

Lemma poll_grid env w :
  grid (self (snd (poll env w))) = grid (self w) /\
  history (snd (poll env w)) = history w.
Proof.
  unfold poll; simpl. destruct (env (polls w)); split; reflexivity.
Qed.

Lemma candidates_grid s s' r c :
  grid s' = grid s -> _get_candidates s' r c = _get_candidates s r c.
Proof.
  intros H. rewrite (grid_eq_set_stop _ _ H). reflexivity.
Qed.

Lemma cell_grid s s' r c : grid s' = grid s -> cell s' r c = cell s r c.
Proof.
  intros H. rewrite (grid_eq_set_stop _ _ H). reflexivity.
Qed.

Lemma unplace_place_grid s s5 r c v :
  Inv s -> (r < 9)%nat -> (c < 9)%nat ->
  In v (_get_candidates s r c) ->
  grid s5 = grid (place s r c v) ->
  grid (unplace s5 r c v) = grid s.
Proof.
  intros (Hwf & _) Hr Hc Hin H5.
  apply in_candidates in Hin as (Hcell & Hv & H1 & H2 & H3).
  rewrite (grid_unplace _ _ r c v H5).
  rewrite unplace_place; auto; lia.
Qed.

Lemma solve_recursive_post fuel env :
  forall w, Inv (self w) -> Forall Inv (history w) ->
  search_post fuel w (_solve_recursive fuel env w).
Proof.
  induction fuel as [|fuel IH]; intros w HI HH; [simpl; lia|].
  cbn [_solve_recursive].
  pose proof (poll_grid env w) as [Hg1 Hh1].
  destruct (poll env w) as [stopped w1]; simpl in Hg1, Hh1.
  assert (Inv (self w1)) as HI1 by (apply (Inv_grid _ _ Hg1); exact HI).
  assert (Forall Inv (history w1)) as HH1 by (rewrite Hh1; exact HH).
  destruct stopped; [simpl; auto|].
  destruct (_find_mrv_cell (self w1)) as [[[r c] cands]|] eqn:Emrv.
  2:{ simpl. destruct (check_solved (self w1)) eqn:Ec; auto. }
  apply find_mrv_some in Emrv as (Hr & Hc & Hcell & Hcands).
  assert (forall vs w2,
    incl vs cands -> Inv (self w2) -> Forall Inv (history w2) ->
    grid (self w2) = grid (self w1) ->
    search_post (S fuel) w
      match
        for_in vs
          (fun v w2 =>
             let (stopped', w3) := poll env w2 in
             if stopped' then Exit (Some (false, w3))
             else
               let w4 := mutate w3 (place (self w3) r c v) in
               match _solve_recursive fuel env w4 with
               | None => Exit None
               | Some (true, w5) => Exit (Some (true, w5))
               | Some (false, w5) =>
                   Next (mutate w5 (unplace (self w5) r c v))
               end) w2
      with
      | Next w' => Some (false, w')
      | Exit res => res
      end) as Hloop.
  { induction vs as [|v vs IHvs]; intros w2 Hincl HI2 HH2 Hg2.
    - simpl. rewrite Hg2, Hg1. auto.
    - cbn [for_in].
      pose proof (poll_grid env w2) as [Hg3 Hh3].
      destruct (poll env w2) as [stopped' w3]; simpl in Hg3, Hh3.
      assert (grid (self w3) = grid (self w1)) as Hg31
        by (rewrite Hg3; exact Hg2).
      assert (Inv (self w3)) as HI3 by (apply (Inv_grid _ _ Hg31); exact HI1).
      assert (Forall Inv (history w3)) as HH3 by (rewrite Hh3; exact HH2).
      destruct stopped'.
      { simpl. rewrite Hg31, Hg1. auto. }
      assert (In v (_get_candidates (self w3) r c)) as Hv3.
      { rewrite (candidates_grid _ _ r c Hg31), <- Hcands.
        apply Hincl. left. reflexivity. }
      assert (Inv (place (self w3) r c v)) as HI4
        by (apply Inv_place; assumption).
      cbv zeta.
      pose proof (IH (mutate w3 (place (self w3) r c v)) HI4
                     (Forall_cons _ HI4 HH3)) as Hrec.
      destruct (_solve_recursive fuel env (mutate w3 (place (self w3) r c v)))
        as [[[|] w5]|]; simpl in Hrec.
      + simpl. exact Hrec.
      + destruct Hrec as (HI5 & HH5 & Hg5).
        assert (grid (unplace (self w5) r c v) = grid (self w3)) as Hg6
          by (apply unplace_place_grid; assumption).
        apply IHvs.
        * intros x Hx. apply Hincl. right. exact Hx.
        * simpl. apply (Inv_grid _ _ Hg6). exact HI3.
        * simpl. constructor; [|exact HH5].
          apply (Inv_grid _ _ Hg6). exact HI3.
        * simpl. rewrite Hg6. exact Hg31.
      + simpl.
        apply in_candidates in Hv3 as (Hcell3 & Hv & _).
        destruct HI3 as (Hwf3 & _).
        pose proof (count_empty_place (self w3) r c v Hwf3 Hr Hc Hcell3) as Hce.
        rewrite <- (count_empty_grid _ _ Hg1), <- (count_empty_grid _ _ Hg31).
        lia. }
  apply Hloop; auto. apply incl_refl.
Qed.

(** ** The completeness check and full validity *)

Lemma check_solved_scan s ps :
  match
    for_in ps
      (fun p (u : unit) =>
         if cell s (fst p) (snd p) =? 0 then Exit false else Next u) tt
  with
  | Next _ => forall p, In p ps -> cell s (fst p) (snd p) <> 0
  | Exit b => b = false /\ exists p, In p ps /\ cell s (fst p) (snd p) = 0
  end.
Proof.
  induction ps as [|p ps IH]; simpl; [intros p []|].
  destruct (Z.eqb_spec (cell s (fst p) (snd p)) 0) as [E|E].
  - split; [reflexivity|]. exists p. auto.
  - destruct (for_in ps _ tt) as [u|b].
    + intros q [<-|Hq]; auto.
    + destruct IH as (-> & q & Hq & Eq). split; [reflexivity|].
      exists q. auto.
Qed.

Lemma check_solved_true s :
  check_solved s = true <->
  forall r c, (r < 9)%nat -> (c < 9)%nat -> cell s r c <> 0.
Proof.
  unfold check_solved. rewrite for_in_nested. fold all_cells.
  pose proof (check_solved_scan s all_cells) as H.
  destruct (for_in all_cells _ tt) as [u|b].
  - split; [|reflexivity]. intros _ r c Hr Hc.
    apply (H (r, c)). apply in_all_cells. auto.
  - destruct H as (-> & [r c] & Hin & E). split; [discriminate|].
    intros Hall. apply in_all_cells in Hin as [Hr Hc].
    exfalso. exact (Hall r c Hr Hc E).
Qed.

Lemma nodupb_NoDup ps : nodupb ps = true -> NoDup ps.
Proof.
  induction ps as [|p t IH]; simpl; intros H; constructor.
  - apply andb_prop in H as [H _]. apply negb_true_iff in H.
    intros Hin. assert (existsb (cell_eqb p) t = true) as T; [|congruence].
    apply existsb_exists. exists p. split; [exact Hin|].
    unfold cell_eqb. rewrite !Nat.eqb_refl. reflexivity.
  - apply andb_prop in H as [_ H]. auto.
Qed.

Lemma peersb_peers p q :
  peersb p q = true -> peers (fst p) (snd p) (fst q) (snd q).
Proof.
  unfold peersb, peers. rewrite !orb_true_iff, !Nat.eqb_eq. tauto.
Qed.

Lemma peers_peersb p q :
  peers (fst p) (snd p) (fst q) (snd q) -> peersb p q = true.
Proof.
  unfold peersb, peers. rewrite !orb_true_iff, !Nat.eqb_eq. tauto.
Qed.

Lemma units_ok k :
  (k < 9)%nat ->
  unit_ok (row_cells k) = true /\ unit_ok (col_cells k) = true /\
  unit_ok (box_cells k) = true.
Proof.
  intros Hk.
  assert (forallb (fun k => unit_ok (row_cells k) && unit_ok (col_cells k)
                            && unit_ok (box_cells k)) (range 9) = true) as H
    by (vm_compute; reflexivity).
  rewrite forallb_forall in H. specialize (H k).
  rewrite !andb_true_iff in H. unfold range in H. rewrite in_seq in H.
  assert (0 <= k < 0 + 9)%nat as Hk' by lia. tauto.
Qed.

(** On a board without 0 that satisfies the invariant, a unit holds each
    digit exactly once. *)
Lemma unit_each_digit_once s ps :
  Inv s -> check_solved s = true -> unit_ok ps = true ->
  each_digit_once (values_at (board s) ps).
Proof.
  intros (Hwf & Hrg & HM & HN) Hfull Hok.
  rewrite check_solved_true in Hfull.
  unfold unit_ok in Hok. rewrite !andb_true_iff in Hok.
  destruct Hok as (((Hlen & Hnd) & Hin) & Hpeers).
  apply Nat.eqb_eq in Hlen. apply nodupb_NoDup in Hnd.
  rewrite forallb_forall in Hin, Hpeers.
  assert (forall p, In p ps -> (fst p < 9)%nat /\ (snd p < 9)%nat) as Hin'.
  { intros p Hp. specialize (Hin p Hp). apply andb_prop in Hin as [A B].
    apply Nat.ltb_lt in A, B. auto. }
  assert (NoDup (values_at (board s) ps)) as Hvals.
  { unfold values_at. apply NoDup_map_NoDup_ForallPairs; [|exact Hnd].
    intros [r c] [r' c'] Hp Hq E.
    destruct (Hin' _ Hp) as [Hr Hc]. destruct (Hin' _ Hq) as [Hr' Hc'].
    simpl in *. specialize (Hpeers _ Hp). rewrite forallb_forall in Hpeers.
    specialize (Hpeers _ Hq). apply peersb_peers in Hpeers. simpl in Hpeers.
    destruct (HN r c r' c') as [-> ->]; auto. }
  assert (incl (values_at (board s) ps) (range_Z 1 10)) as Hincl.
  { intros v Hv. unfold values_at in Hv. apply in_map_iff in Hv.
    destruct Hv as ([r c] & <- & Hp). destruct (Hin' _ Hp) as [Hr Hc].
    simpl in *. apply in_range_Z_1_10.
    pose proof (Hrg r c Hr Hc) as Hb. pose proof (Hfull r c Hr Hc) as Hz.
    unfold cell in *. lia. }
  intros v Hv. apply (proj1 (NoDup_count_occ' Z.eq_dec _) Hvals).
  apply (@NoDup_length_incl _ _ (range_Z 1 10) Hvals);
    [|exact Hincl|apply in_range_Z_1_10; exact Hv].
  unfold values_at. rewrite length_map, Hlen. simpl. lia.
Qed.

Lemma solved_board_valid s :
  Inv s -> check_solved s = true -> sudoku_valid (board s).
Proof.
  intros HI Hfull. split.
  - intros r c Hr Hc. destruct HI as (_ & Hrg & _).
    rewrite check_solved_true in Hfull.
    pose proof (Hrg r c Hr Hc). pose proof (Hfull r c Hr Hc).
    unfold cell in *. lia.
  - intros k Hk. destruct (units_ok k Hk) as (H1 & H2 & H3).
    repeat split; apply unit_each_digit_once; assumption.
Qed.

(** ** The loader, character by character *)

Lemma all_cells_index : all_cells = List.map cell_of_index (range 81).
Proof. vm_compute. reflexivity. Qed.

Lemma load_loops_flat puzzle s :
  for_in (range 9)
    (fun i s1 => for_in (range 9) (fun j s2 => load_cell puzzle i j s2) s1) s
  = for_in (range 81)
      (fun k t => load_cell puzzle (k / 9) (k mod 9) t) s.
Proof.
  rewrite for_in_nested. fold all_cells.
  rewrite all_cells_index, for_in_map. reflexivity.
Qed.

Lemma index_of_cell k : (k / 9 * 9 + k mod 9 = k)%nat.
Proof. pose proof (Nat.div_mod_eq k 9). lia. Qed.

Lemma cell_index_lt k :
  (k < 81)%nat -> (k / 9 < 9)%nat /\ (k mod 9 < 9)%nat.
Proof.
  intros H. split.
  - apply Nat.Div0.div_lt_upper_bound. lia.
  - apply Nat.mod_upper_bound. lia.
Qed.

Lemma cell_index_inj k k' :
  (k / 9 = k' / 9)%nat -> (k mod 9 = k' mod 9)%nat -> k = k'.
Proof.
  intros H1 H2. pose proof (Nat.div_mod_eq k 9). pose proof (Nat.div_mod_eq k' 9).
  lia.
Qed.

Lemma load_cell_exit puzzle i j s s' e :
  load_cell puzzle i j s = Exit (s', e) -> s' = s.
Proof.
  unfold load_cell.
  repeat match goal with
         | |- context [if ?b then _ else _] => destruct b
         | |- context [match ?o with Some _ => _ | None => _ end] => destruct o
         end;
    intros H; inversion H; reflexivity.
Qed.

Lemma load_cell_next puzzle i j s s' :
  load_cell puzzle i j s = Next s' ->
  (s' = s /\ clue_of (nth (i * 9 + j) puzzle 0%N) = 0) \/
  (exists v,
      clue_of (nth (i * 9 + j) puzzle 0%N) = v /\ 1 <= v <= 9 /\
      Z.testbit (row_mask s i) (v - 1) = false /\
      Z.testbit (col_mask s j) (v - 1) = false /\
      Z.testbit (box_mask s (box_index i j)) (v - 1) = false /\
      s' = place s i j v).
Proof.
  unfold load_cell, clue_of.
  destruct (isdigit _ && negb _).
  - destruct (int _) as [v|]; [|discriminate].
    destruct (Z.leb_spec 1 v); destruct (Z.leb_spec v 9); simpl;
      try discriminate.
    destruct (truthy (Z.land (row_mask s i) (bit_of v))) eqn:E1;
      [discriminate|].
    destruct (truthy (Z.land (col_mask s j) (bit_of v))) eqn:E2;
      [discriminate|].
    destruct (truthy (Z.land (box_mask s (box_index i j)) (bit_of v))) eqn:E3;
      [discriminate|].
    rewrite truthy_land_bit in E1, E2, E3 by assumption.
    intros Heq; inversion Heq. right. exists v. repeat split; auto.
  - destruct (negb _); [discriminate|].
    intros Heq; inversion Heq. left. auto.
Qed.

Lemma ltb_succ_other a b : a <> b -> (a <? S b)%nat = (a <? b)%nat.
Proof.
  intros H. destruct (Nat.ltb_spec a (S b)), (Nat.ltb_spec a b); auto; lia.
Qed.

Lemma loaded_upto_step puzzle k s s' :
  (k < 81)%nat -> loaded_upto puzzle k s ->
  load_cell puzzle (k / 9) (k mod 9) s = Next s' ->
  loaded_upto puzzle (S k) s'.
Proof.
  intros Hk (HI & Hcells) Hstep.
  destruct (cell_index_lt k Hk) as [Hi Hj].
  apply load_cell_next in Hstep. rewrite index_of_cell in Hstep.
  assert (cell s (k / 9) (k mod 9) = 0) as Hempty.
  { rewrite Hcells, Nat.ltb_irrefl by assumption. reflexivity. }
  destruct Hstep as [(-> & Hclue)|(v & Hclue & Hv & H1 & H2 & H3 & ->)].
  - split; [exact HI|]. intros k' Hk'. rewrite Hcells by assumption.
    destruct (Nat.eq_dec k' k) as [->|Hne].
    + rewrite Nat.ltb_irrefl, Hclue.
      replace (k <? S k)%nat with true by (symmetry; apply Nat.ltb_lt; lia).
      reflexivity.
    + rewrite ltb_succ_other by exact Hne. reflexivity.
  - split.
    + apply Inv_place; auto. apply in_candidates. auto.
    + intros k' Hk'. destruct HI as (Hwf & _).
      rewrite cell_place by assumption.
      destruct (Nat.eq_dec k' k) as [->|Hne].
      * rewrite !Nat.eqb_refl. simpl.
        replace (k <? S k)%nat with true by (symmetry; apply Nat.ltb_lt; lia).
        symmetry. exact Hclue.
      * replace ((k' / 9 =? k / 9)%nat && (k' mod 9 =? k mod 9)%nat)
          with false.
        2:{ symmetry. apply andb_false_iff.
            destruct (Nat.eqb_spec (k' / 9) (k / 9)) as [E1|E1]; auto.
            destruct (Nat.eqb_spec (k' mod 9) (k mod 9)) as [E2|E2]; auto.
            exfalso. apply Hne. apply cell_index_inj; assumption. }
        rewrite Hcells by assumption.
        rewrite ltb_succ_other by exact Hne. reflexivity.
Qed.

Lemma load_loop_spec puzzle n :
  forall a s, (a + n = 81)%nat -> loaded_upto puzzle a s ->
  match
    for_in (seq a n) (fun k t => load_cell puzzle (k / 9) (k mod 9) t) s
  with
  | Next s' => loaded_upto puzzle 81 s'
  | Exit (s', e) =>
      exists k, (a <= k < 81)%nat /\ loaded_upto puzzle k s' /\
                load_cell puzzle (k / 9) (k mod 9) s' = Exit (s', e) /\
                for_in (seq a (k - a))
                  (fun k t => load_cell puzzle (k / 9) (k mod 9) t) s
                = Next s'
  end.
Proof.
  induction n as [|n IH]; intros a s Han HL; cbn [for_in seq].
  - replace 81%nat with a by lia. exact HL.
  - destruct (load_cell puzzle (a / 9) (a mod 9) s) as [s1|[s1 e]] eqn:E.
    + assert (loaded_upto puzzle (S a) s1) as HL1
        by (apply (loaded_upto_step puzzle a s); auto; lia).
      specialize (IH (S a) s1 ltac:(lia) HL1).
      destruct (for_in (seq (S a) n) _ s1) as [s'|[s' e]]; [exact IH|].
      destruct IH as (k & Hk & H1 & H2 & H3). exists k.
      split; [lia|]. split; [exact H1|]. split; [exact H2|].
      replace (k - a)%nat with (S (k - S a)) by lia.
      cbn [for_in seq]. rewrite E. exact H3.
    + pose proof (load_cell_exit _ _ _ _ _ _ E) as ->.
      exists a. split; [lia|]. split; [exact HL|]. split; [exact E|].
      rewrite Nat.sub_diag. reflexivity.
Qed.

Lemma cell_reset b r c :
  cell (mkEngine (repeat zeros9 9) zeros9 zeros9 zeros9 b) r c = 0.
Proof.
  change (nth c (nth r (repeat zeros9 9) []) 0 = 0).
  assert (nth r (repeat zeros9 9) [] = zeros9 \/ nth r (repeat zeros9 9) [] = [])
    as [-> | ->].
  { do 9 (destruct r as [|r]; [left; reflexivity|]).
    right. destruct r; reflexivity. }
  - do 9 (destruct c as [|c]; [reflexivity|]). destruct c; reflexivity.
  - destruct c; reflexivity.
Qed.

Lemma mask_reset r : nth r zeros9 0 = 0.
Proof.
  do 9 (destruct r as [|r]; [reflexivity|]). destruct r; reflexivity.
Qed.

Lemma Inv_reset b : Inv (mkEngine (repeat zeros9 9) zeros9 zeros9 zeros9 b).
Proof.
  split; [|split; [|split]].
  - unfold wf; simpl. repeat split. repeat constructor.
  - intros r c _ _. rewrite cell_reset. lia.
  - unfold masks_consistent, row_mask, col_mask, box_mask.
    cbn [row_masks col_masks box_masks].
    split; [|split]; intros x v Hx Hv; rewrite mask_reset, Z.bits_0;
      (split; [discriminate|]).
    + intros (c & _ & E). rewrite cell_reset in E. lia.
    + intros (r & _ & E). rewrite cell_reset in E. lia.
    + intros (r & c & _ & _ & _ & E). rewrite cell_reset in E. lia.
  - intros r c r' c' _ _ _ _ Hnz. rewrite cell_reset in Hnz. lia.
Qed.

Lemma loaded_upto_reset puzzle b :
  loaded_upto puzzle 0 (mkEngine (repeat zeros9 9) zeros9 zeros9 zeros9 b).
Proof.
  split; [apply Inv_reset|]. intros k _. rewrite cell_reset. reflexivity.
Qed.

Lemma load_board_returned s0 puzzle s :
  load_board s0 puzzle = (s, Returned) -> loaded_upto puzzle 81 s.
Proof.
  unfold load_board. destruct (negb _); [discriminate|].
  rewrite load_loops_flat.
  pose proof (load_loop_spec puzzle 81 0 _ eq_refl
                (loaded_upto_reset puzzle (stop_requested s0))) as H.
  unfold range.
  destruct (for_in (seq 0 81) _ _) as [s'|[s' e]]; intros E; inversion E.
  subst. exact H.
Qed.

Lemma load_board_Inv s0 puzzle s :
  load_board s0 puzzle = (s, Returned) -> Inv s.
Proof. intros H. apply load_board_returned in H. apply H. Qed.

(** What a raised [ValueError] leaves behind: either the length test failed
    and nothing was touched, or the loop stopped at some character [k] with
    the characters before it loaded. *)
Lemma load_board_raised s puzzle s' e :
  load_board s puzzle = (s', Raised e) ->
  (length puzzle <> 81%nat /\ e = BadPuzzle /\ s' = s) \/
  (length puzzle = 81%nat /\
   exists k, (k < 81)%nat /\ loaded_upto puzzle k s' /\
     load_cell puzzle (k / 9) (k mod 9) s' = Exit (s', e) /\
     for_in (seq 0 k) (fun k t => load_cell puzzle (k / 9) (k mod 9) t)
       (reset s) = Next s').
Proof.
  unfold load_board.
  destruct (Nat.eqb_spec (length puzzle) 81) as [Hlen|Hlen]; simpl negb; cbv iota.
  - rewrite load_loops_flat. unfold range.
    pose proof (load_loop_spec puzzle 81 0 _ eq_refl
                  (loaded_upto_reset puzzle (stop_requested s))) as H.
    fold (reset s) in H |- *.
    destruct (for_in (seq 0 81) _ (reset s)) as [s1|[s1 e1]];
      intros E; inversion E; subst.
    right. split; [exact Hlen|].
    destruct H as (k & Hk & H1 & H2 & H3). exists k.
    rewrite Nat.sub_0_r in H3.
    split; [lia|]. split; [exact H1|]. split; [exact H2|exact H3].
  - intros E; inversion E. left. auto.
Qed.

Lemma load_cell_agree p q i j s :
  nth (i * 9 + j) p 0%N = nth (i * 9 + j) q 0%N ->
  load_cell p i j s = load_cell q i j s.
Proof.
  intros H. unfold load_cell, str, char in *. rewrite H. reflexivity.
Qed.

Lemma load_cell_dot puzzle i j s :
  nth (i * 9 + j) puzzle 0%N = ch_dot -> load_cell puzzle i j s = Next s.
Proof.
  intros H. unfold load_cell, str, char in *. rewrite H. reflexivity.
Qed.

Lemma length_truncate_at k puzzle :
  length puzzle = 81%nat -> (k <= 81)%nat ->
  length (truncate_at k puzzle) = 81%nat.
Proof.
  intros Hlen Hk. unfold truncate_at.
  rewrite length_app, length_firstn, repeat_length. lia.
Qed.

Lemma nth_truncate_at k puzzle i :
  length puzzle = 81%nat -> (k <= 81)%nat -> (i < 81)%nat ->
  nth i (truncate_at k puzzle) 0%N =
  if (i <? k)%nat then nth i puzzle 0%N else ch_dot.
Proof.
  intros Hlen Hk Hi. unfold truncate_at.
  assert (length (firstn k puzzle) = k) as Hf by (rewrite length_firstn; lia).
  destruct (Nat.ltb_spec i k) as [Hlt|Hge].
  - rewrite app_nth1 by lia. rewrite nth_firstn.
    replace (i <? k)%nat with true by (symmetry; apply Nat.ltb_lt; exact Hlt).
    reflexivity.
  - rewrite app_nth2 by lia. rewrite Hf. apply nth_repeat_lt. lia.
Qed.

Lemma for_in_seq_split {R S} a n m (body : nat -> S -> ctl R S) s :
  (m <= n)%nat ->
  for_in (seq a n) body s =
  match for_in (seq a m) body s with
  | Next s' => for_in (seq (a + m) (n - m)) body s'
  | Exit r => Exit r
  end.
Proof.
  intros H. replace n with (m + (n - m))%nat at 1 by lia.
  rewrite seq_app. apply for_in_app.
Qed.

(** A failed load leaves what a successful load of the truncated input
    builds. *)
Lemma load_truncated s puzzle k s' :
  length puzzle = 81%nat -> (k < 81)%nat ->
  for_in (seq 0 k) (fun k t => load_cell puzzle (k / 9) (k mod 9) t)
    (reset s) = Next s' ->
  load_board s (truncate_at k puzzle) = (s', Returned).
Proof.
  intros Hlen Hk Hrun. unfold load_board.
  rewrite length_truncate_at by (assumption || lia). simpl negb. cbv iota.
  rewrite load_loops_flat. unfold range. fold (reset s).
  rewrite (for_in_seq_split 0 81 k) by lia.
  rewrite (for_in_ext (seq 0 k) _
             (fun k t => load_cell puzzle (k / 9) (k mod 9) t)).
  2:{ intros i t Hi. apply in_seq in Hi. apply load_cell_agree.
      rewrite index_of_cell, nth_truncate_at by lia.
      replace (i <? k)%nat with true by (symmetry; apply Nat.ltb_lt; lia).
      reflexivity. }
  rewrite Hrun.
  assert (forall n a t, (k <= a)%nat -> (a + n <= 81)%nat ->
            for_in (seq a n)
              (fun i u => load_cell (truncate_at k puzzle) (i / 9) (i mod 9) u)
              t = Next t) as Hdots.
  { induction n as [|n IH]; intros a t Ha Han; cbn [for_in seq]; [reflexivity|].
    rewrite load_cell_dot; [apply IH; lia|].
    rewrite index_of_cell, nth_truncate_at by lia.
    replace (a <? k)%nat with false by (symmetry; apply Nat.ltb_ge; lia).
    reflexivity. }
  rewrite Hdots by lia. reflexivity.
Qed.

(** The loader never looks at the engine it is given, except to keep its
    cancellation flag. *)
Lemma load_cell_set_stop puzzle i j s b :
  load_cell puzzle i j (set_stop_requested s b) =
  match load_cell puzzle i j s with
  | Next s' => Next (set_stop_requested s' b)
  | Exit (s', e) => Exit (set_stop_requested s' b, e)
  end.
Proof.
  unfold load_cell.
  change (row_mask (set_stop_requested s b) i) with (row_mask s i).
  change (col_mask (set_stop_requested s b) j) with (col_mask s j).
  change (box_mask (set_stop_requested s b) (box_index i j))
    with (box_mask s (box_index i j)).
  repeat match goal with
         | |- context [if ?c then _ else _] => destruct c
         | |- context [match ?o with Some _ => _ | None => _ end] => destruct o
         end; reflexivity.
Qed.

Lemma load_loop_set_stop puzzle ks s b :
  for_in ks (fun k t => load_cell puzzle (k / 9) (k mod 9) t)
    (set_stop_requested s b) =
  match for_in ks (fun k t => load_cell puzzle (k / 9) (k mod 9) t) s with
  | Next s' => Next (set_stop_requested s' b)
  | Exit (s', e) => Exit (set_stop_requested s' b, e)
  end.
Proof.
  revert s; induction ks as [|k ks IH]; intros s; cbn [for_in]; [reflexivity|].
  rewrite load_cell_set_stop.
  destruct (load_cell puzzle (k / 9) (k mod 9) s) as [s1|[s1 e]]; auto.
Qed.

Lemma load_board_any_engine s s0 puzzle s' o :
  length puzzle = 81%nat ->
  load_board s puzzle = (s', o) ->
  load_board s0 puzzle = (set_stop_requested s' (stop_requested s0), o).
Proof.
  intros Hlen. unfold load_board. rewrite Hlen. simpl negb. cbv iota.
  rewrite !load_loops_flat.
  change (mkEngine (repeat zeros9 9) zeros9 zeros9 zeros9 (stop_requested s0))
    with (set_stop_requested
            (mkEngine (repeat zeros9 9) zeros9 zeros9 zeros9 (stop_requested s))
            (stop_requested s0)).
  rewrite load_loop_set_stop.
  destruct (for_in (range 81) _ _) as [s1|[s1 e]]; intros E; inversion E;
    reflexivity.
Qed.

(** ** When the MRV scan returns [None] *)

Lemma mrv_loops_flat s acc :
  for_in (range 9)
    (fun i a => for_in (range 9) (fun j a' => mrv_step s i j a') a) acc
  = for_in (range 81) (fun k a => mrv_step s (k / 9) (k mod 9) a) acc.
Proof.
  rewrite for_in_nested. fold all_cells.
  rewrite all_cells_index, for_in_map. reflexivity.
Qed.

Lemma candidates_length s r c : (length (_get_candidates s r c) <= 9)%nat.
Proof.
  unfold _get_candidates. destruct (negb _).
  - simpl. lia.
  - eapply Nat.le_trans; [apply filter_length_le|]. exact (Nat.le_refl 9).
Qed.

Lemma mrv_step_cases s i j best bl :
  (2 <= bl)%nat -> (best = None -> bl = 10%nat) ->
  (cell s i j <> 0 /\ mrv_step s i j (best, bl) = Next (best, bl)) \/
  (dead_cell s i j /\ mrv_step s i j (best, bl) = Exit None) \/
  (cell s i j = 0 /\ length (_get_candidates s i j) = 1%nat /\
   exists x, mrv_step s i j (best, bl) = Exit (Some x)) \/
  (cell s i j = 0 /\ (2 <= length (_get_candidates s i j))%nat /\
   exists b' bl', mrv_step s i j (best, bl) = Next (b', bl') /\
                  b' <> None /\ (2 <= bl')%nat).
Proof.
  intros Hbl Hnone. unfold mrv_step.
  destruct (Z.eqb_spec (cell s i j) 0) as [E|E]; [|left; auto].
  right. pose proof (candidates_length s i j) as Hlen.
  destruct (_get_candidates s i j) as [|v0 cs] eqn:Ec.
  { left. split; [split; assumption|reflexivity]. }
  right. set (cands := v0 :: cs) in *.
  destruct (Nat.ltb_spec (length cands) bl) as [Hlt|Hge].
  - destruct (Nat.eqb_spec (length cands) 1) as [H1|H1].
    + left. split; [exact E|]. split; [exact H1|]. eexists. reflexivity.
    + right. split; [exact E|].
      assert (2 <= length cands)%nat as H2 by (subst cands; simpl in *; lia).
      split; [exact H2|]. exists (Some (i, j, cands)), (length cands).
      split; [reflexivity|]. split; [discriminate|exact H2].
  - right. split; [exact E|].
    assert (2 <= length cands)%nat as H2 by lia.
    split; [exact H2|]. exists best, bl. split; [reflexivity|].
    split; [|exact Hbl]. intros ->. specialize (Hnone eq_refl). lia.
Qed.

Lemma dead_between_skip s a b :
  (cell s (a / 9) (a mod 9) <> 0 \/
   (2 <= length (_get_candidates s (a / 9) (a mod 9)))%nat) ->
  dead_between s (S a) b <-> dead_between s a b.
Proof.
  intros Ha. split; intros (k & Hk & Hd & Hbefore).
  - exists k. split; [lia|]. split; [exact Hd|].
    intros k' Hk' Hz. destruct (Nat.eq_dec k' a) as [->|Hne].
    + destruct Ha as [Ha|Ha]; [contradiction|lia].
    + apply Hbefore; [lia|exact Hz].
  - assert (k <> a) as Hne.
    { intros ->. destruct Hd as [Hz Hc]. destruct Ha as [Ha|Ha];
        [contradiction|]. rewrite Hc in Ha. simpl in Ha. lia. }
    exists k. split; [lia|]. split; [exact Hd|].
    intros k' Hk' Hz. apply Hbefore; [lia|exact Hz].
Qed.

Lemma mrv_scan_none s n :
  forall a best bl, (2 <= bl)%nat -> (best = None -> bl = 10%nat) ->
  scan_none
    (for_in (seq a n) (fun k acc => mrv_step s (k / 9) (k mod 9) acc)
       (best, bl)) <->
  (best = None /\
   forall k, (a <= k < a + n)%nat -> cell s (k / 9) (k mod 9) <> 0) \/
  dead_between s a (a + n).
Proof.
  induction n as [|n IH]; intros a best bl Hbl Hnone; cbn [for_in seq].
  - simpl. split.
    + intros ->. left. split; [reflexivity|]. intros k Hk. lia.
    + intros [[H _]|(k & Hk & _)]; [exact H|lia].
  - replace (a + S n)%nat with (S a + n)%nat by lia.
    destruct (mrv_step_cases s (a / 9) (a mod 9) best bl Hbl Hnone)
      as [(Hc & E)|[(Hd & E)|[(Hc & Hl & x & E)
                              |(Hc & Hl & b' & bl' & E & Hb' & Hbl')]]];
      rewrite E.
    + rewrite (IH (S a) best bl Hbl Hnone).
      rewrite (dead_between_skip s a) by (left; exact Hc).
      split; (intros [[Hb Hall]|Hdead]; [left|right; exact Hdead]);
        (split; [exact Hb|]); intros k Hk.
      * destruct (Nat.eq_dec k a) as [->|Hne]; [exact Hc|apply Hall; lia].
      * apply Hall. lia.
    + simpl. split; [|reflexivity]. intros _. right.
      exists a. split; [lia|]. split; [exact Hd|]. intros k' Hk'. lia.
    + simpl. split; [discriminate|].
      intros [[_ Hall]|(k & Hk & Hd & Hbefore)].
      * exfalso. apply (Hall a); [lia|exact Hc].
      * exfalso. destruct (Nat.eq_dec k a) as [->|Hne].
        -- destruct Hd as [_ Hd]. rewrite Hd in Hl. discriminate.
        -- apply (Hbefore a); [lia|exact Hc|exact Hl].
    + rewrite (IH (S a) b' bl' Hbl') by (intros ->; contradiction).
      rewrite (dead_between_skip s a) by (right; exact Hl).
      split; (intros [[Hb Hall]|Hdead]; [exfalso|right; exact Hdead]).
      * contradiction.
      * apply (Hall a); [lia|exact Hc].
Qed.

Lemma rc_of_index r c :
  (c < 9)%nat -> ((r * 9 + c) / 9 = r)%nat /\ ((r * 9 + c) mod 9 = c)%nat.
Proof.
  intros Hc. split.
  - symmetry. apply (Nat.div_unique _ 9 r c); lia.
  - symmetry. apply (Nat.mod_unique _ 9 r c); lia.
Qed.

Lemma has_empty_cell_index s :
  has_empty_cell s <->
  exists k, (k < 81)%nat /\ cell s (k / 9) (k mod 9) = 0.
Proof.
  split.
  - intros (r & c & Hr & Hc & E). exists (r * 9 + c)%nat.
    destruct (rc_of_index r c Hc) as [-> ->]. split; [lia|exact E].
  - intros (k & Hk & E). destruct (cell_index_lt k Hk) as [Hr Hc].
    exists (k / 9)%nat, (k mod 9)%nat. auto.
Qed.

Lemma scan_dead_index s : scan_dead s <-> dead_between s 0 81.
Proof.
  split.
  - intros (r & c & Hr & Hc & Hd & Hbefore). exists (r * 9 + c)%nat.
    destruct (rc_of_index r c Hc) as [E1 E2]. rewrite E1, E2.
    split; [lia|]. split; [exact Hd|]. intros k' Hk' Hz.
    assert (k' < 81)%nat as Hk81 by lia.
    destruct (cell_index_lt k' Hk81) as [Hr' Hc'].
    apply Hbefore; auto. unfold before. rewrite index_of_cell. lia.
  - intros (k & Hk & Hd & Hbefore).
    assert (k < 81)%nat as Hk81 by lia.
    destruct (cell_index_lt k Hk81) as [Hr Hc].
    exists (k / 9)%nat, (k mod 9)%nat. repeat split; try assumption;
      try apply Hd.
    intros r' c' Hr' Hc' Hb Hz. unfold before in Hb.
    rewrite index_of_cell in Hb.
    destruct (rc_of_index r' c' Hc') as [E1 E2].
    specialize (Hbefore (r' * 9 + c')%nat). rewrite E1, E2 in Hbefore.
    apply Hbefore; [lia|exact Hz].
Qed.

Lemma find_mrv_none s :
  _find_mrv_cell s = None <-> ~ has_empty_cell s \/ scan_dead s.
Proof.
  unfold _find_mrv_cell. rewrite mrv_loops_flat. unfold range.
  pose proof (mrv_scan_none s 81 0 None 10%nat ltac:(lia) (fun _ => eq_refl))
    as H.
  rewrite has_empty_cell_index, scan_dead_index.
  assert (scan_none
            (for_in (seq 0 81)
               (fun k acc => mrv_step s (k / 9) (k mod 9) acc) (None, 10%nat))
          <-> match
                for_in (seq 0 81)
                  (fun k a => mrv_step s (k / 9) (k mod 9) a) (None, 10%nat)
              with
              | Next (best, _) => best
              | Exit r => r
              end = None) as Hs.
  { destruct (for_in (seq 0 81) _ _) as [[b m]|r]; simpl; tauto. }
  rewrite <- Hs, H. simpl. split.
  - intros [[_ Hall]|Hd]; [left|right; exact Hd].
    intros (k & Hk & E). apply (Hall k); [lia|exact E].
  - intros [Hno|Hd]; [left|right; exact Hd].
    split; [reflexivity|]. intros k Hk E. apply Hno. exists k.
    split; [lia|exact E].
Qed.

(** ** The search only sees the environment through [poll] *)

Lemma solve_recursive_env fuel env env' :
  (forall k, env k = env' k) ->
  forall w, _solve_recursive fuel env w = _solve_recursive fuel env' w.
Proof.
  intros Henv. induction fuel as [|fuel IH]; intros w; [reflexivity|].
  cbn [_solve_recursive].
  assert (forall u, poll env u = poll env' u) as Hpoll
    by (intros u; unfold poll; rewrite Henv; reflexivity).
  rewrite Hpoll. destruct (poll env' w) as [stopped w1].
  destruct stopped; [reflexivity|].
  destruct (_find_mrv_cell (self w1)) as [[[r c] cands]|]; [|reflexivity].
  match goal with
  | |- match for_in _ ?f _ with _ => _ end
       = match for_in _ ?g _ with _ => _ end =>
      rewrite (for_in_ext cands f g); [reflexivity|]
  end.
  intros v t _. rewrite Hpoll. destruct (poll env' t) as [stopped' w3].
  destruct stopped'; [reflexivity|]. cbv zeta. rewrite IH. reflexivity.
Qed.

(** ** Characters *)

Lemma decimal_in_range zeros ch v :
  decimal_in zeros ch = Some v -> 0 <= v <= 9.
Proof.
  induction zeros as [|z zs IH]; simpl; [discriminate|].
  destruct ((z <=? ch)%N && (ch <? z + 10)%N) eqn:E; [|exact IH].
  apply andb_prop in E as [E1 E2].
  apply N.leb_le in E1. apply N.ltb_lt in E2.
  intros H; inversion H. lia.
Qed.

Lemma int_range ch v : int ch = Some v -> 0 <= v <= 9.
Proof. apply decimal_in_range. Qed.

Lemma ascii_digit ch :
  (49 <= ch <= 57)%N ->
  isdigit ch = true /\ (ch =? ch_0)%N = false /\
  int ch = Some (Z.of_N ch - 48).
Proof.
  intros H.
  assert (ch = 49 \/ ch = 50 \/ ch = 51 \/ ch = 52 \/ ch = 53 \/ ch = 54 \/
          ch = 55 \/ ch = 56 \/ ch = 57)%N as Hcases by lia.
  repeat (destruct Hcases as [->|Hcases]; [vm_compute; auto|]).
  subst ch. vm_compute. auto.
Qed.

Lemma clue_of_ascii_digit ch :
  (49 <= ch <= 57)%N -> clue_of ch = Z.of_N ch - 48.
Proof.
  intros H. destruct (ascii_digit ch H) as (H1 & H2 & H3).
  unfold clue_of. rewrite H1, H2, H3. reflexivity.
Qed.

(** ** Loading a solved grid *)

Lemma solved_encoding_spec puzzle :
  is_solved_encoding puzzle = true ->
  length puzzle = 81%nat /\
  (forall k, (k < 81)%nat -> (49 <= nth k puzzle 0 <= 57)%N) /\
  (forall k k', (k < 81)%nat -> (k' < 81)%nat -> k <> k' ->
     peers (k / 9) (k mod 9) (k' / 9) (k' mod 9) ->
     nth k puzzle 0%N <> nth k' puzzle 0%N).
Proof.
  unfold is_solved_encoding. rewrite !andb_true_iff.
  intros ((Hlen & Hdig) & Hconf). apply Nat.eqb_eq in Hlen.
  split; [exact Hlen|]. split.
  - intros k Hk. rewrite forallb_forall in Hdig.
    specialize (Hdig (nth k puzzle 0%N) ltac:(apply nth_In; lia)).
    apply andb_prop in Hdig as [A B].
    apply N.leb_le in A, B. lia.
  - intros k k' Hk Hk' Hne Hp E.
    rewrite forallb_forall in Hconf.
    specialize (Hconf k ltac:(apply in_seq; lia)).
    rewrite forallb_forall in Hconf.
    specialize (Hconf k' ltac:(apply in_seq; lia)).
    rewrite !orb_true_iff in Hconf.
    destruct Hconf as [[H|H]|H].
    + apply Nat.eqb_eq in H. contradiction.
    + apply negb_true_iff in H.
      rewrite (peers_peersb (cell_of_index k) (cell_of_index k') Hp) in H.
      discriminate.
    + apply negb_true_iff in H. apply N.eqb_neq in H. contradiction.
Qed.

Lemma load_cell_exit_digit puzzle i j s s' e :
  (49 <= nth (i * 9 + j) puzzle 0 <= 57)%N ->
  load_cell puzzle i j s = Exit (s', e) ->
  let v := clue_of (nth (i * 9 + j) puzzle 0%N) in
  1 <= v /\
  (Z.testbit (row_mask s i) (v - 1) = true \/
   Z.testbit (col_mask s j) (v - 1) = true \/
   Z.testbit (box_mask s (box_index i j)) (v - 1) = true).
Proof.
  intros Hch. rewrite (clue_of_ascii_digit _ Hch).
  destruct (ascii_digit _ Hch) as (H1 & H2 & H3).
  unfold load_cell, str, char in *. rewrite H1, H2, H3. simpl negb.
  cbv beta iota zeta. simpl andb.
  set (v := Z.of_N (nth (i * 9 + j) puzzle 0%N) - 48) in *.
  assert (1 <= v <= 9) as Hv by (subst v; lia).
  replace (1 <=? v) with true by (symmetry; apply Z.leb_le; lia).
  replace (v <=? 9) with true by (symmetry; apply Z.leb_le; lia).
  simpl negb. cbv iota.
  destruct (truthy (Z.land (row_mask s i) (bit_of v))) eqn:E1.
  { rewrite truthy_land_bit in E1 by lia. intros _. auto with zarith. }
  destruct (truthy (Z.land (col_mask s j) (bit_of v))) eqn:E2.
  { rewrite truthy_land_bit in E2 by lia. intros _. split; [lia|auto]. }
  destruct (truthy (Z.land (box_mask s (box_index i j)) (bit_of v))) eqn:E3.
  { rewrite truthy_land_bit in E3 by lia. intros _. split; [lia|auto]. }
  discriminate.
Qed.

Lemma load_solved_encoding puzzle s0 :
  is_solved_encoding puzzle = true ->
  exists s, load_board s0 puzzle = (s, Returned).
Proof.
  intros Henc. apply solved_encoding_spec in Henc as (Hlen & Hdig & Hconf).
  destruct (load_board s0 puzzle) as [s [|e]] eqn:E; [eauto|exfalso].
  apply load_board_raised in E as [(Hne & _)|(_ & k & Hk & HL & Hexit & _)];
    [contradiction|].
  destruct (cell_index_lt k Hk) as [Hi Hj].
  assert (49 <= nth (k / 9 * 9 + k mod 9) puzzle 0 <= 57)%N as Hch
    by (rewrite index_of_cell; apply Hdig; exact Hk).
  apply (load_cell_exit_digit _ _ _ _ _ _ Hch) in Hexit.
  rewrite index_of_cell in Hexit. cbv zeta in Hexit.
  destruct Hexit as (Hv & Hbits).
  destruct HL as ((_ & _ & (HR & HC & HB) & _) & Hcells).
  assert (exists r' c', (r' < 9)%nat /\ (c' < 9)%nat /\
            peers (k / 9) (k mod 9) r' c' /\
            cell s r' c' = clue_of (nth k puzzle 0%N)) as (r' & c' & Hr' & Hc' & Hp & Hcell).
  { destruct Hbits as [Hb|[Hb|Hb]].
    - apply HR in Hb as (c' & Hc' & Ec); auto.
      exists (k / 9)%nat, c'. unfold peers. repeat split; auto.
    - apply HC in Hb as (r' & Hr' & Ec); auto.
      exists r', (k mod 9)%nat. unfold peers. repeat split; auto.
    - apply HB in Hb as (r' & c' & Hr' & Hc' & Hbx & Ec);
        [|apply box_index_lt; assumption|assumption].
      exists r', c'. unfold peers. repeat split; auto. }
  destruct (rc_of_index r' c' Hc') as [E1 E2].
  assert (r' * 9 + c' < 81)%nat as Hk' by lia.
  pose proof (Hcells _ Hk') as Hc. rewrite E1, E2, Hcell in Hc.
  unfold str, char in *.
  destruct (Nat.ltb_spec (r' * 9 + c') k) as [Hlt|Hge]; [|lia].
  rewrite !clue_of_ascii_digit in Hc by (apply Hdig; lia).
  apply (Hconf k (r' * 9 + c')%nat Hk Hk' ltac:(lia)).
  - rewrite E1, E2. exact Hp.
  - apply N2Z.inj. lia.
Qed.

Lemma solve_full env s :
  env 0%nat = false ->
  (forall r c, (r < 9)%nat -> (c < 9)%nat -> cell s r c <> 0) ->
  exists w, solve env s = Some (true, w) /\ board (self w) = board s /\
            history w = [].
Proof.
  intros Henv Hfull. unfold solve, solve_fuel. cbn [_solve_recursive].
  unfold poll. cbn [polls self history]. rewrite Henv.
  cbn [stop_requested set_stop_requested].
  rewrite find_mrv_set_stop.
  assert (_find_mrv_cell s = None) as ->.
  { apply find_mrv_none. left. intros (r & c & Hr & Hc & E).
    exact (Hfull r c Hr Hc E). }
  rewrite check_solved_set_stop.
  assert (check_solved s = true) as -> by (apply check_solved_true; exact Hfull).
  eexists. repeat split; reflexivity.
Qed.

(** ** [solve] as a whole *)

Lemma get_solution_board s : get_solution s = board s.
Proof. unfold get_solution. apply map_id. Qed.

Lemma solve_post env s :
  Inv s ->
  search_post solve_fuel (mkRun (set_stop_requested s false) O [])
    (solve env s).
Proof.
  intros HI. unfold solve. apply solve_recursive_post.
  - apply Inv_set_stop. exact HI.
  - constructor.
Qed.

Lemma search_returns fuel env w :
  Inv (self w) -> Forall Inv (history w) ->
  (count_empty (self w) < fuel)%nat ->
  exists b w', _solve_recursive fuel env w = Some (b, w').
Proof.
  intros HI HH Hfuel. pose proof (solve_recursive_post fuel env w HI HH) as H.
  destruct (_solve_recursive fuel env w) as [[b w']|]; [eauto|].
  simpl in H. lia.
Qed.

Lemma solve_any_flag env s b : solve env (set_stop_requested s b) = solve env s.
Proof. reflexivity. Qed.

Lemma load_cell_digit_range puzzle i j s s' v :
  load_cell puzzle i j s = Exit (s', DigitRange v) ->
  int (nth (i * 9 + j) puzzle 0%N) = Some v /\
  nth (i * 9 + j) puzzle 0%N <> ch_0 /\ ~ 1 <= v <= 9.
Proof.
  unfold load_cell.
  destruct (isdigit _ && negb (_ =? ch_0)%N) eqn:Ed.
  - apply andb_prop in Ed as [_ Ed]. apply negb_true_iff, N.eqb_neq in Ed.
    destruct (int _) as [u|]; [|discriminate].
    destruct (Z.leb_spec 1 u); destruct (Z.leb_spec u 9); simpl;
      repeat match goal with
             | |- context [if ?c then _ else _] => destruct c
             end;
      intros E; inversion E; subst; repeat split; auto; lia.
  - destruct (negb (char_in _ _)); intros E; discriminate E.
Qed.

(** * The claims *)

(** C1 (as amended).  A failed [load_board] does not leave the engine fully
    empty.  When the length test fails the engine is untouched, because the
    test comes before the reset.  When the loop raises at character [k], the
    engine is exactly what a successful load of the input cut at [k] builds,
    whatever engine that load starts from: the clues before [k] stay
    committed with their mask bits, the cells from [k] on are 0. *)
Theorem load_failure_state s puzzle s' e :
  load_board s puzzle = (s', Raised e) ->
  (length puzzle <> 81%nat /\ e = BadPuzzle /\ s' = s) \/
  (length puzzle = 81%nat /\
   exists k, (k < 81)%nat /\
     load_cell puzzle (k / 9) (k mod 9) s' = Exit (s', e) /\
     forall s0, exists s'',
       load_board s0 (truncate_at k puzzle) = (s'', Returned) /\
       grid s'' = grid s').
Proof.
  intros H. apply load_board_raised in H
    as [H|(Hlen & k & Hk & _ & Hexit & Hrun)]; [left; exact H|right].
  split; [exact Hlen|]. exists k. split; [exact Hk|]. split; [exact Hexit|].
  intros s0. pose proof (load_truncated s puzzle k s' Hlen Hk Hrun) as Hload.
  exists (set_stop_requested s' (stop_requested s0)). split.
  - apply (load_board_any_engine s); [|exact Hload].
    apply length_truncate_at; [exact Hlen|lia].
  - apply grid_set_stop.
Qed.

Lemma load_failure_state_witness :
  exists s' e,
    load_board init clue_then_letter = (s', Raised e) /\
    ((length clue_then_letter <> 81%nat /\ e = BadPuzzle /\ s' = init) \/
     (length clue_then_letter = 81%nat /\
      exists k, (k < 81)%nat /\
        load_cell clue_then_letter (k / 9) (k mod 9) s' = Exit (s', e) /\
        forall s0, exists s'',
          load_board s0 (truncate_at k clue_then_letter) = (s'', Returned) /\
          grid s'' = grid s')).
Proof.
  destruct (load_board init clue_then_letter) as [s' [|e]] eqn:E.
  - vm_compute in E. discriminate.
  - exists s', e. split; [reflexivity|].
    exact (load_failure_state init clue_then_letter s' e E).
Defined.

(** C1 refuted as stated: after an invalid character the clue read before it
    is still on the board, and after a wrong length a loaded engine keeps its
    grid. *)
Lemma load_failure_not_empty :
  (exists s', load_board init clue_then_letter
              = (s', Raised (InvalidCharacter 97%N)) /\
              cell s' 0 0 = 1 /\ ~ fully_empty s') /\
  (exists s s', load_board init solved_grid = (s, Returned) /\
                load_board s [49%N] = (s', Raised BadPuzzle) /\
                cell s' 0 0 = 5 /\ ~ fully_empty s').
Proof.
  split.
  - eexists. split; [vm_compute; reflexivity|].
    split; [reflexivity|]. intros H. unfold fully_empty in H.
    vm_compute in H. discriminate H.
  - eexists. eexists. split; [vm_compute; reflexivity|].
    split; [vm_compute; reflexivity|].
    split; [reflexivity|]. intros H. unfold fully_empty in H.
    vm_compute in H. discriminate H.
Qed.

(** C2.  If a puzzle loads and [solve] returns [True], every cell of the grid
    is in 1..9 and every row, column and box holds each digit 1..9 exactly
    once; and every puzzle of the sanitized bank loads, and [solve], when no
    cancellation is requested, returns [True] on it with such a grid. *)
Theorem solve_true_valid :
  (forall s0 puzzle s env w,
     load_board s0 puzzle = (s, Returned) ->
     solve env s = Some (true, w) ->
     sudoku_valid (get_solution (self w))) /\
  Forall
    (fun entry =>
       forall s0, exists s,
         load_board s0 (snd entry) = (s, Returned) /\
         forall env, never_cancelled env ->
           exists w, solve env s = Some (true, w) /\
                     sudoku_valid (get_solution (self w)))
    PUZZLE_BANK.
Proof.
  assert (forall s0 puzzle s env w,
            load_board s0 puzzle = (s, Returned) ->
            solve env s = Some (true, w) ->
            sudoku_valid (get_solution (self w))) as Hgen.
  { intros s0 puzzle s env w Hload Hsolve.
    pose proof (solve_post env s (load_board_Inv _ _ _ Hload)) as H.
    rewrite Hsolve in H. simpl in H. destruct H as (HI & _ & Hfull).
    rewrite get_solution_board. apply solved_board_valid; assumption. }
  split; [exact Hgen|].
  assert (forallb (fun entry => solves_ok (snd entry)) PUZZLE_BANK = true) as Hb
    by (vm_compute; reflexivity).
  rewrite forallb_forall in Hb. apply Forall_forall.
  intros [difficulty puzzle] Hin s0. specialize (Hb _ Hin). clear Hin.
  unfold solves_ok in Hb. cbn [snd] in Hb |- *.
  destruct (load_board init puzzle) as [s [|e]] eqn:Hload; [|discriminate].
  assert (length puzzle = 81%nat) as Hlen.
  { unfold load_board in Hload.
    destruct (Nat.eqb_spec (length puzzle) 81); [assumption|].
    simpl in Hload. discriminate. }
  pose proof (load_board_any_engine init s0 puzzle s Returned Hlen Hload)
    as Hload0.
  exists (set_stop_requested s (stop_requested s0)).
  split; [exact Hload0|]. intros env Henv.
  rewrite solve_any_flag. unfold solve.
  rewrite (solve_recursive_env solve_fuel env no_cancel Henv).
  fold (solve no_cancel s).
  destruct (solve no_cancel s) as [[[|] w]|] eqn:Hsolve; try discriminate.
  exists w. split; [reflexivity|].
  apply (Hgen init puzzle s no_cancel w Hload Hsolve).
Qed.

Lemma solve_true_valid_witness :
  exists s w,
    load_board init almost_solved = (s, Returned) /\
    solve no_cancel s = Some (true, w) /\
    sudoku_valid (get_solution (self w)).
Proof.
  exists (fst (load_board init almost_solved)).
  assert (load_board init almost_solved
          = (fst (load_board init almost_solved), Returned)) as Hload
    by (vm_compute; reflexivity).
  destruct (solve no_cancel (fst (load_board init almost_solved)))
    as [[[|] w]|] eqn:Hsolve.
  - exists w. split; [exact Hload|]. split; [reflexivity|].
    exact (proj1 solve_true_valid init almost_solved _ no_cancel w
             Hload Hsolve).
  - exfalso. vm_compute in Hsolve. discriminate.
  - exfalso. vm_compute in Hsolve. discriminate.
Defined.

(** C3 (as amended).  [_find_mrv_cell] returns [None] exactly when no empty
    cell exists or when the scan reaches an empty cell without candidates,
    that is, one that no empty cell with exactly one candidate precedes in
    row-major order.  The two cases give the same [None]; what separates
    them is the rescan of the board for a 0, which finds none exactly when
    no empty cell exists. *)
Theorem find_mrv_none_iff s :
  (_find_mrv_cell s = None <-> ~ has_empty_cell s \/ scan_dead s) /\
  (check_solved s = true <-> ~ has_empty_cell s).
Proof.
  split; [apply find_mrv_none|].
  rewrite check_solved_true. split.
  - intros Hall (r & c & Hr & Hc & E). exact (Hall r c Hr Hc E).
  - intros Hno r c Hr Hc E. apply Hno. exists r, c. auto.
Qed.

(** C3 refuted as stated: a board with an empty cell without candidates and
    a complete board get the same selection result, and a dead cell that
    comes after a single-candidate cell does not even produce [None]. *)
Lemma mrv_signals_coincide :
  (dead_cell (fst (load_board init dead_puzzle)) 0 8 /\
   check_solved (fst (load_board init solved_grid)) = true /\
   _find_mrv_cell (fst (load_board init dead_puzzle))
   = _find_mrv_cell (fst (load_board init solved_grid))) /\
  (dead_cell (fst (load_board init single_before_dead)) 8 8 /\
   _find_mrv_cell (fst (load_board init single_before_dead))
   = Some (0%nat, 0%nat, [1])).
Proof.
  unfold dead_cell. repeat split; vm_compute; reflexivity.
Qed.

(** C4.  For a puzzle that loaded, if [solve] returns [False] and no
    cancellation was requested during the search, grid and masks are exactly
    as the load left them. *)
Theorem exhausted_search_restores s0 puzzle s env w :
  load_board s0 puzzle = (s, Returned) ->
  never_cancelled env ->
  solve env s = Some (false, w) ->
  grid (self w) = grid s.
Proof.
  intros Hload _ Hsolve.
  pose proof (solve_post env s (load_board_Inv _ _ _ Hload)) as H.
  rewrite Hsolve in H. simpl in H. destruct H as (_ & _ & Hg).
  rewrite Hg. apply grid_set_stop.
Qed.

Lemma exhausted_search_restores_witness :
  exists s w,
    load_board init unsolvable = (s, Returned) /\
    never_cancelled no_cancel /\
    solve no_cancel s = Some (false, w) /\
    length (history w) = 2%nat /\
    grid (self w) = grid s.
Proof.
  exists (fst (load_board init unsolvable)).
  assert (load_board init unsolvable
          = (fst (load_board init unsolvable), Returned)) as Hload
    by (vm_compute; reflexivity).
  assert (never_cancelled no_cancel) as Henv by (intros k; reflexivity).
  destruct (solve no_cancel (fst (load_board init unsolvable)))
    as [[[|] w]|] eqn:Hsolve.
  - exfalso. vm_compute in Hsolve. discriminate.
  - exists w. split; [exact Hload|]. split; [exact Henv|].
    split; [reflexivity|]. split.
    + vm_compute in Hsolve. inversion Hsolve. reflexivity.
    + exact (exhausted_search_restores init unsolvable _ no_cancel w
               Hload Henv Hsolve).
  - exfalso. vm_compute in Hsolve. discriminate.
Defined.

(** C5.  After a load the masks are consistent with the grid: bit [v-1] of a
    row, column or box mask is set iff some cell of that unit holds [v], the
    box of (r,c) being (r/3)*3 + c/3.  Every engine produced by a placement
    or a backtrack during the search is consistent as well, and so is the
    engine [solve] returns.  A placement or a backtrack at (r,c) leaves the
    masks of every other row, column and box alone, and a placement sets the
    cell together with the bit in the masks of row r, column c and the box. *)
Theorem mask_consistency_invariant :
  (forall s0 puzzle s,
     load_board s0 puzzle = (s, Returned) ->
     masks_consistent s /\
     forall env b w,
       solve env s = Some (b, w) ->
       Forall masks_consistent (history w) /\ masks_consistent (self w)) /\
  (forall s r c v i,
     (i <> r ->
      row_mask (place s r c v) i = row_mask s i /\
      row_mask (unplace s r c v) i = row_mask s i) /\
     (i <> c ->
      col_mask (place s r c v) i = col_mask s i /\
      col_mask (unplace s r c v) i = col_mask s i) /\
     (i <> box_index r c ->
      box_mask (place s r c v) i = box_mask s i /\
      box_mask (unplace s r c v) i = box_mask s i)) /\
  (forall s r c v,
     wf s -> (r < 9)%nat -> (c < 9)%nat ->
     cell (place s r c v) r c = v /\
     row_mask (place s r c v) r = Z.lor (row_mask s r) (bit_of v) /\
     col_mask (place s r c v) c = Z.lor (col_mask s c) (bit_of v) /\
     box_mask (place s r c v) (box_index r c)
     = Z.lor (box_mask s (box_index r c)) (bit_of v)).
Proof.
  split; [|split].
  3:{ intros s r c v Hwf Hr Hc.
      rewrite cell_place_same, row_mask_place, col_mask_place, box_mask_place
        by assumption.
      rewrite !Nat.eqb_refl. auto. }
  - intros s0 puzzle s Hload.
    pose proof (load_board_Inv _ _ _ Hload) as HI.
    split; [apply HI|]. intros env b w Hsolve.
    pose proof (solve_post env s HI) as H. rewrite Hsolve in H. simpl in H.
    destruct H as (HIw & HH & _). split; [|apply HIw].
    eapply Forall_impl; [|exact HH]. intros t Ht. apply Ht.
  - intros s r c v i. unfold row_mask, col_mask, box_mask, place, unplace.
    cbn [row_masks col_masks box_masks].
    split; [|split]; intros Hne; split; apply nth_upd_other; exact Hne.
Qed.

Lemma mask_consistency_invariant_witness :
  exists s w,
    load_board init almost_solved = (s, Returned) /\
    solve no_cancel s = Some (true, w) /\
    length (history w) = 1%nat /\
    masks_consistent s /\
    Forall masks_consistent (history w) /\ masks_consistent (self w).
Proof.
  exists (fst (load_board init almost_solved)).
  assert (load_board init almost_solved
          = (fst (load_board init almost_solved), Returned)) as Hload
    by (vm_compute; reflexivity).
  destruct (proj1 mask_consistency_invariant init almost_solved _ Hload)
    as [Hs Hrun].
  destruct (solve no_cancel (fst (load_board init almost_solved)))
    as [[[|] w]|] eqn:Hsolve.
  - exists w. split; [exact Hload|]. split; [reflexivity|]. split.
    + vm_compute in Hsolve. inversion Hsolve. reflexivity.
    + split; [exact Hs|]. exact (Hrun no_cancel true w Hsolve).
  - exfalso. vm_compute in Hsolve. discriminate.
  - exfalso. vm_compute in Hsolve. discriminate.
Defined.

(** C6 (the code departs from the claim).  U+0663 is not a character of the
    encoding, yet [load_board] takes it for the clue 3. *)
Theorem load_accepts_arabic_digit :
  char_in 1635%N alphabet = false /\
  exists s, load_board init arabic_three = (s, Returned) /\ cell s 0 0 = 3.
Proof.
  split; [vm_compute; reflexivity|].
  eexists. split; [vm_compute; reflexivity|]. reflexivity.
Qed.

(** When the range check fails, the parsed value is 0 and the character is a
    decimal zero other than ['0']. *)
Lemma load_digit_range_zero s puzzle s' v :
  load_board s puzzle = (s', Raised (DigitRange v)) ->
  v = 0 /\ length puzzle = 81%nat /\
  exists k, (k < 81)%nat /\ int (nth k puzzle 0%N) = Some 0 /\
            nth k puzzle 0%N <> ch_0.
Proof.
  intros H.
  apply load_board_raised in H
    as [(_ & He & _)|(Hlen & k & Hk & _ & Hexit & _)]; [discriminate He|].
  apply load_cell_digit_range in Hexit as (Hint & Hne & Hv).
  rewrite index_of_cell in Hint, Hne.
  pose proof (int_range _ _ Hint) as Hr.
  assert (v = 0) as -> by lia. repeat split; auto. exists k. auto.
Qed.

(** C7 (as amended).  On every input written in the characters
    [.0123456789] the range check never fails: whenever it is evaluated the
    parsed value is between 1 and 9. *)
Theorem range_check_passes_on_alphabet s puzzle s' v :
  Forall (fun ch => char_in ch alphabet = true) puzzle ->
  load_board s puzzle <> (s', Raised (DigitRange v)).
Proof.
  intros Hall H.
  destruct (load_digit_range_zero _ _ _ _ H) as (_ & Hlen & k & Hk & Hint & Hne).
  rewrite Forall_forall in Hall.
  specialize (Hall (nth k puzzle 0%N) ltac:(apply nth_In; lia)).
  unfold char_in in Hall. apply existsb_exists in Hall as (x & Hx & E).
  apply N.eqb_eq in E. rewrite E in Hint, Hne. clear E.
  vm_compute in Hx.
  repeat (destruct Hx as [<-|Hx];
          [try (vm_compute in Hint; discriminate Hint);
           try (apply Hne; reflexivity)|]).
  exact Hx.
Qed.

Lemma range_check_passes_on_alphabet_witness :
  Forall (fun ch => char_in ch alphabet = true) almost_solved /\
  load_board init almost_solved <> (init, Raised (DigitRange 0)).
Proof.
  assert (Forall (fun ch => char_in ch alphabet = true) almost_solved) as Hall.
  { apply Forall_forall. intros ch Hin.
    assert (forallb (fun ch => char_in ch alphabet) almost_solved = true) as Hb
      by (vm_compute; reflexivity).
    rewrite forallb_forall in Hb. apply Hb. exact Hin. }
  split; [exact Hall|].
  exact (range_check_passes_on_alphabet init almost_solved init 0 Hall).
Defined.

(** C7 refuted as stated: U+0660 passes [isdigit] and [ch != '0'], parses to
    0, and the range check raises. *)
Lemma range_check_fails_on_arabic_zero :
  isdigit 1632%N = true /\ int 1632%N = Some 0 /\
  exists s', load_board init arabic_zero = (s', Raised (DigitRange 0)).
Proof.
  split; [vm_compute; reflexivity|]. split; [vm_compute; reflexivity|].
  eexists. vm_compute. reflexivity.
Qed.

(** C8.  A fully solved, valid 81-digit encoding loads; [solve], when no
    cancellation is requested before its first look at the flag, returns
    [True] without a single placement; and the snapshot equals the input
    cell for cell. *)
Theorem solved_grid_fixed_point puzzle s0 env :
  is_solved_encoding puzzle = true ->
  env 0%nat = false ->
  exists s w,
    load_board s0 puzzle = (s, Returned) /\
    solve env s = Some (true, w) /\
    history w = [] /\
    forall i j, (i < 9)%nat -> (j < 9)%nat ->
      nth j (nth i (get_solution (self w)) []) 0
      = Z.of_N (nth (i * 9 + j) puzzle 0%N) - 48.
Proof.
  intros Henc Henv.
  destruct (load_solved_encoding puzzle s0 Henc) as (s & Hload).
  apply solved_encoding_spec in Henc as (Hlen & Hdig & _).
  pose proof (load_board_returned _ _ _ Hload) as (_ & Hcells).
  assert (forall i j, (i < 9)%nat -> (j < 9)%nat ->
            cell s i j = Z.of_N (nth (i * 9 + j) puzzle 0%N) - 48) as Hval.
  { intros i j Hi Hj. destruct (rc_of_index i j Hj) as [E1 E2].
    assert (i * 9 + j < 81)%nat as Hk by lia.
    pose proof (Hcells _ Hk) as Hc. rewrite E1, E2 in Hc. rewrite Hc.
    replace (i * 9 + j <? 81)%nat with true
      by (symmetry; apply Nat.ltb_lt; exact Hk).
    apply clue_of_ascii_digit, Hdig, Hk. }
  destruct (solve_full env s Henv) as (w & Hsolve & Hboard & Hhist).
  { intros r c Hr Hc. rewrite Hval by assumption.
    assert (r * 9 + c < 81)%nat as Hk by lia.
    pose proof (Hdig _ Hk). lia. }
  exists s, w. split; [exact Hload|]. split; [exact Hsolve|].
  split; [exact Hhist|]. intros i j Hi Hj.
  rewrite get_solution_board, Hboard. apply Hval; assumption.
Qed.

Lemma solved_grid_fixed_point_witness :
  exists s w,
    load_board init solved_grid = (s, Returned) /\
    solve no_cancel s = Some (true, w) /\
    history w = [] /\
    forall i j, (i < 9)%nat -> (j < 9)%nat ->
      nth j (nth i (get_solution (self w)) []) 0
      = Z.of_N (nth (i * 9 + j) solved_grid 0%N) - 48.
Proof.
  apply (solved_grid_fixed_point solved_grid init no_cancel).
  - vm_compute. reflexivity.
  - reflexivity.
Defined.

(** C9.  For a puzzle that loaded, whenever [solve] returns [False], be it
    after exhausting the candidates or because cancellation was requested at
    any point of the search, grid and masks are exactly as the load left
    them; more generally every frame of the search that returns [False]
    leaves grid and masks as it found them. *)
Theorem failed_search_restores :
  (forall s0 puzzle s env w,
     load_board s0 puzzle = (s, Returned) ->
     solve env s = Some (false, w) ->
     grid (self w) = grid s) /\
  (forall fuel env w0 w,
     Inv (self w0) -> Forall Inv (history w0) ->
     _solve_recursive fuel env w0 = Some (false, w) ->
     grid (self w) = grid (self w0)).
Proof.
  split.
  - intros s0 puzzle s env w Hload Hsolve.
    pose proof (solve_post env s (load_board_Inv _ _ _ Hload)) as H.
    rewrite Hsolve in H. simpl in H. destruct H as (_ & _ & Hg).
    rewrite Hg. apply grid_set_stop.
  - intros fuel env w0 w HI HH Hrun.
    pose proof (solve_recursive_post fuel env w0 HI HH) as H.
    rewrite Hrun in H. simpl in H. apply H.
Qed.

Lemma failed_search_restores_witness :
  exists s w,
    load_board init unsolvable = (s, Returned) /\
    solve cancel_at_2 s = Some (false, w) /\
    stop_requested (self w) = true /\
    length (history w) = 2%nat /\
    grid (self w) = grid s.
Proof.
  exists (fst (load_board init unsolvable)).
  assert (load_board init unsolvable
          = (fst (load_board init unsolvable), Returned)) as Hload
    by (vm_compute; reflexivity).
  destruct (solve cancel_at_2 (fst (load_board init unsolvable)))
    as [[[|] w]|] eqn:Hsolve.
  - exfalso. vm_compute in Hsolve. discriminate.
  - exists w. split; [exact Hload|]. split; [reflexivity|].
    pose proof (proj1 failed_search_restores init unsolvable _ cancel_at_2 w
                  Hload Hsolve) as Hg.
    vm_compute in Hsolve. inversion Hsolve. subst w.
    split; [reflexivity|]. split; [reflexivity|]. exact Hg.
  - exfalso. vm_compute in Hsolve. discriminate.
Defined.

(** C10.  [solve] returns on every loaded board: a frame of the search whose
    board has fewer empty cells than there is fuel returns; the cell the MRV
    selection picks is empty, and placing any of its candidates leaves one
    empty cell fewer for the recursive call; a board has at most 81 empty
    cells, so that 82 frames are always enough. *)
Theorem solve_terminates :
  (forall s0 puzzle s env,
     load_board s0 puzzle = (s, Returned) ->
     exists b w, solve env s = Some (b, w)) /\
  (forall fuel env w,
     Inv (self w) -> Forall Inv (history w) ->
     (count_empty (self w) < fuel)%nat ->
     exists b w', _solve_recursive fuel env w = Some (b, w')) /\
  (forall s r c cands v,
     Inv s -> _find_mrv_cell s = Some (r, c, cands) -> In v cands ->
     cell s r c = 0 /\ S (count_empty (place s r c v)) = count_empty s) /\
  (forall s, wf s -> (count_empty s <= 81)%nat).
Proof.
  split; [|split; [|split]].
  - intros s0 puzzle s env Hload.
    pose proof (load_board_Inv _ _ _ Hload) as HI.
    unfold solve. apply search_returns.
    + apply Inv_set_stop. exact HI.
    + constructor.
    + cbn [self]. rewrite (count_empty_grid s) by apply grid_set_stop.
      destruct HI as (Hwf & _). pose proof (count_empty_le_81 s Hwf).
      unfold solve_fuel. lia.
  - apply search_returns.
  - intros s r c cands v (Hwf & _) Hmrv Hin.
    apply find_mrv_some in Hmrv as (Hr & Hc & Hcell & ->).
    split; [exact Hcell|].
    apply in_candidates in Hin as (_ & Hv & _).
    apply count_empty_place; auto. lia.
  - apply count_empty_le_81.
Qed.

Lemma solve_terminates_witness :
  exists s b w,
    load_board init unsolvable = (s, Returned) /\
    solve no_cancel s = Some (b, w).
Proof.
  exists (fst (load_board init unsolvable)).
  assert (load_board init unsolvable
          = (fst (load_board init unsolvable), Returned)) as Hload
    by (vm_compute; reflexivity).
  destruct (proj1 solve_terminates init unsolvable _ no_cancel Hload)
    as (b & w & Hsolve).
  exists b, w. split; [exact Hload|exact Hsolve].
Defined.

(** * Further properties of the code *)

(** ** The box index *)

(** X12.  [_get_box_index] is the box index of the solver; on the board it is
    below 9; two cells have the same box index exactly when they lie in the
    same band of rows and the same stack of columns; and [box_cells b] lists
    exactly the cells of index [b]. *)
Theorem box_index_partition r c r' c' b :
  (r < 9)%nat -> (c < 9)%nat -> (r' < 9)%nat -> (c' < 9)%nat -> (b < 9)%nat ->
  _get_box_index r c = box_index r c /\
  (_get_box_index r c < 9)%nat /\
  (_get_box_index r c = _get_box_index r' c' <->
   (r / 3 = r' / 3 /\ c / 3 = c' / 3)%nat) /\
  (In (r, c) (box_cells b) <-> _get_box_index r c = b).
Proof.
  intros Hr Hc Hr' Hc' Hb. unfold _get_box_index.
  pose proof (Nat.div_mod_eq r 3). pose proof (Nat.div_mod_eq c 3).
  pose proof (Nat.div_mod_eq r' 3). pose proof (Nat.div_mod_eq c' 3).
  pose proof (Nat.div_mod_eq b 3).
  pose proof (Nat.mod_upper_bound r 3). pose proof (Nat.mod_upper_bound c 3).
  pose proof (Nat.mod_upper_bound r' 3). pose proof (Nat.mod_upper_bound c' 3).
  pose proof (Nat.mod_upper_bound b 3).
  split; [reflexivity|]. split; [lia|]. split; [lia|].
  unfold box_cells. rewrite in_prod_iff, !in_seq. lia.
Qed.

Lemma box_index_partition_witness :
  _get_box_index 4 7 = box_index 4 7 /\
  (_get_box_index 4 7 < 9)%nat /\
  (_get_box_index 4 7 = _get_box_index 5 8 <->
   (4 / 3 = 5 / 3 /\ 7 / 3 = 8 / 3)%nat) /\
  (In (4%nat, 7%nat) (box_cells 5) <-> _get_box_index 4 7 = 5%nat).
Proof.
  apply (box_index_partition 4 7 5 8 5); lia.
Defined.

(** ** The loader *)

Lemma load_board_length s0 puzzle s :
  load_board s0 puzzle = (s, Returned) -> length puzzle = 81%nat.
Proof.
  unfold load_board. destruct (Nat.eqb_spec (length puzzle) 81); [auto|].
  simpl. intros E. discriminate E.
Qed.

Lemma load_board_flag s0 puzzle s o :
  load_board s0 puzzle = (s, o) -> stop_requested s = stop_requested s0.
Proof.
  intros H. destruct (Nat.eq_dec (length puzzle) 81) as [Hlen|Hlen].
  - pose proof (load_board_any_engine s0 s0 puzzle s o Hlen H) as H'.
    rewrite H in H'. inversion H' as [E]. rewrite E at 1. reflexivity.
  - unfold load_board in H.
    destruct (Nat.eqb_spec (length puzzle) 81); [contradiction|].
    simpl in H. inversion H. reflexivity.
Qed.

(** X1.  When [load_board] returns, the input had 81 characters, the engine
    has its 9x9 shape, every cell holds the clue of its character (0 for
    ['.'] and ['0']), every cell is in 0..9, no digit is repeated among
    peers, and the cancellation flag is as it was. *)
Theorem load_board_success s0 puzzle s :
  load_board s0 puzzle = (s, Returned) ->
  length puzzle = 81%nat /\ wf s /\
  (forall i j, (i < 9)%nat -> (j < 9)%nat ->
     cell s i j = clue_of (nth (i * 9 + j) puzzle 0%N)) /\
  cells_in_range s /\ no_conflict s /\
  stop_requested s = stop_requested s0.
Proof.
  intros H. pose proof (load_board_returned _ _ _ H) as (HI & Hcells).
  split; [exact (load_board_length _ _ _ H)|].
  destruct HI as (Hwf & Hrg & _ & Hnc).
  split; [exact Hwf|]. split.
  - intros i j Hi Hj. destruct (rc_of_index i j Hj) as [E1 E2].
    assert (i * 9 + j < 81)%nat as Hk by lia.
    pose proof (Hcells _ Hk) as Hc. rewrite E1, E2 in Hc. rewrite Hc.
    replace (i * 9 + j <? 81)%nat with true
      by (symmetry; apply Nat.ltb_lt; exact Hk).
    reflexivity.
  - split; [exact Hrg|]. split; [exact Hnc|].
    exact (load_board_flag _ _ _ _ H).
Qed.

Lemma load_board_success_witness :
  exists s,
    load_board init almost_solved = (s, Returned) /\
    length almost_solved = 81%nat /\ wf s /\
    (forall i j, (i < 9)%nat -> (j < 9)%nat ->
       cell s i j = clue_of (nth (i * 9 + j) almost_solved 0%N)) /\
    cells_in_range s /\ no_conflict s /\
    stop_requested s = stop_requested init.
Proof.
  exists (fst (load_board init almost_solved)).
  assert (load_board init almost_solved
          = (fst (load_board init almost_solved), Returned)) as Hload
    by (vm_compute; reflexivity).
  split; [exact Hload|].
  exact (load_board_success init almost_solved _ Hload).
Defined.

(** X4.  On an 81-character input [load_board] replaces the prior state
    entirely: the grid, the masks and the outcome are the same whatever
    engine it is called on, and only the cancellation flag is carried
    over. *)
Theorem load_board_replaces_state s1 s2 puzzle :
  length puzzle = 81%nat ->
  grid (fst (load_board s1 puzzle)) = grid (fst (load_board s2 puzzle)) /\
  snd (load_board s1 puzzle) = snd (load_board s2 puzzle) /\
  stop_requested (fst (load_board s1 puzzle)) = stop_requested s1.
Proof.
  intros Hlen. destruct (load_board s1 puzzle) as [s' o] eqn:E1.
  rewrite (load_board_any_engine s1 s2 puzzle s' o Hlen E1). simpl.
  split; [reflexivity|]. split; [reflexivity|].
  exact (load_board_flag _ _ _ _ E1).
Qed.

Lemma load_board_replaces_state_witness :
  length clue_then_letter = 81%nat /\
  grid (fst (load_board (fst (load_board init solved_grid)) clue_then_letter))
  = grid (fst (load_board init clue_then_letter)) /\
  snd (load_board (fst (load_board init solved_grid)) clue_then_letter)
  = snd (load_board init clue_then_letter) /\
  stop_requested
    (fst (load_board (fst (load_board init solved_grid)) clue_then_letter))
  = stop_requested (fst (load_board init solved_grid)).
Proof.
  split; [reflexivity|].
  apply (load_board_replaces_state (fst (load_board init solved_grid)) init
           clue_then_letter).
  reflexivity.
Defined.

(** ** Candidates *)

Lemma filter_sorted (f : Z -> bool) l :
  StronglySorted Z.lt l -> StronglySorted Z.lt (filter f l).
Proof.
  induction 1 as [|a l Hs IH Ha]; simpl; [constructor|].
  destruct (f a); [|exact IH]. constructor; [exact IH|].
  rewrite Forall_forall in *. intros x Hx. apply filter_In in Hx as [Hx _].
  auto.
Qed.

(** X5.  With the masks consistent, the candidates of an empty cell are
    exactly the digits 1..9 that none of its peers holds; they come in
    strictly ascending order; a filled cell has none. *)
Theorem candidates_spec s r c :
  Inv s -> (r < 9)%nat -> (c < 9)%nat ->
  (forall v, In v (_get_candidates s r c) <->
     cell s r c = 0 /\ 1 <= v <= 9 /\
     forall r' c', (r' < 9)%nat -> (c' < 9)%nat -> peers r c r' c' ->
       cell s r' c' <> v) /\
  StronglySorted Z.lt (_get_candidates s r c) /\
  (cell s r c <> 0 -> _get_candidates s r c = []).
Proof.
  intros (Hwf & Hrg & HM & HN) Hr Hc. split; [|split].
  - intros v. rewrite in_candidates. split.
    + intros (Hz & Hv & H1 & H2 & H3). split; [exact Hz|]. split; [exact Hv|].
      intros r' c' Hr' Hc' Hp E.
      apply (candidate_no_peer s r c v r' c'); auto; lia.
    + intros (Hz & Hv & Hfree). split; [exact Hz|]. split; [exact Hv|].
      destruct HM as (HR & HC & HB).
      split; [|split].
      * destruct (Z.testbit (row_mask s r) (v - 1)) eqn:Eb; [|reflexivity].
        apply HR in Eb as (c' & Hc' & E); [|assumption|lia].
        exfalso. apply (Hfree r c'); auto. unfold peers. auto.
      * destruct (Z.testbit (col_mask s c) (v - 1)) eqn:Eb; [|reflexivity].
        apply HC in Eb as (r' & Hr' & E); [|assumption|lia].
        exfalso. apply (Hfree r' c); auto. unfold peers. auto.
      * destruct (Z.testbit (box_mask s (box_index r c)) (v - 1)) eqn:Eb;
          [|reflexivity].
        apply HB in Eb as (r' & c' & Hr' & Hc' & Hbx & E);
          [|apply box_index_lt; assumption|lia].
        exfalso. apply (Hfree r' c'); auto. unfold peers. auto.
  - unfold _get_candidates. destruct (negb _); [constructor|].
    apply filter_sorted. unfold range_Z. simpl.
    repeat (constructor; [|repeat constructor; lia]). constructor.
  - intros Hz. unfold _get_candidates.
    destruct (Z.eqb_spec (cell s r c) 0); [contradiction|reflexivity].
Qed.

Lemma candidates_spec_witness :
  exists s,
    load_board init almost_solved = (s, Returned) /\
    (forall v, In v (_get_candidates s 0 0) <->
       cell s 0 0 = 0 /\ 1 <= v <= 9 /\
       forall r' c', (r' < 9)%nat -> (c' < 9)%nat -> peers 0 0 r' c' ->
         cell s r' c' <> v) /\
    StronglySorted Z.lt (_get_candidates s 0 0) /\
    (cell s 0 0 <> 0 -> _get_candidates s 0 0 = []).
Proof.
  exists (fst (load_board init almost_solved)).
  assert (load_board init almost_solved
          = (fst (load_board init almost_solved), Returned)) as Hload
    by (vm_compute; reflexivity).
  split; [exact Hload|].
  apply (candidates_spec _ 0 0 (load_board_Inv _ _ _ Hload)); lia.
Defined.

(** ** Which inputs load, and what the errors say *)

Lemma load_cell_next_ok puzzle i j s s' :
  load_cell puzzle i j s = Next s' ->
  char_ok (nth (i * 9 + j) puzzle 0%N) = true.
Proof.
  unfold load_cell, char_ok.
  destruct (isdigit _ && negb _).
  - destruct (int _) as [v|]; [|intros E; discriminate E].
    destruct ((1 <=? v) && (v <=? 9)); [reflexivity|].
    simpl. intros E; discriminate E.
  - destruct (char_in _ _); [reflexivity|]. simpl. intros E; discriminate E.
Qed.

Lemma load_loop_chars_ok puzzle n :
  forall a s s',
    for_in (seq a n) (fun k t => load_cell puzzle (k / 9) (k mod 9) t) s
    = Next s' ->
    forall k, (a <= k < a + n)%nat -> char_ok (nth k puzzle 0%N) = true.
Proof.
  induction n as [|n IH]; intros a s s' Hrun k Hk; [lia|].
  cbn [for_in seq] in Hrun.
  destruct (load_cell puzzle (a / 9) (a mod 9) s) as [s1|r] eqn:E;
    [|discriminate Hrun].
  destruct (Nat.eq_dec k a) as [->|Hne].
  - apply load_cell_next_ok in E. rewrite index_of_cell in E. exact E.
  - apply (IH (S a) s1 s' Hrun). lia.
Qed.

Lemma load_board_returned_run s0 puzzle s :
  load_board s0 puzzle = (s, Returned) ->
  for_in (seq 0 81) (fun k t => load_cell puzzle (k / 9) (k mod 9) t)
    (reset s0) = Next s.
Proof.
  unfold load_board. destruct (negb _); [intros E; discriminate E|].
  rewrite load_loops_flat. unfold range. fold (reset s0).
  destruct (for_in (seq 0 81) _ (reset s0)) as [s'|[s' e]];
    intros E; inversion E; reflexivity.
Qed.

(** Every way [load_cell] can raise. *)
Lemma load_cell_exit_cases puzzle i j s s' e :
  load_cell puzzle i j s = Exit (s', e) ->
  let ch := nth (i * 9 + j) puzzle 0%N in
  (char_ok ch = false /\
   ((e = IntLiteral ch /\ isdigit ch = true /\ int ch = None) \/
    (exists v, e = DigitRange v /\ int ch = Some v) \/
    (e = InvalidCharacter ch /\ isdigit ch && negb (ch =? ch_0)%N = false /\
     char_in ch [ch_dot; ch_0] = false))) \/
  (char_ok ch = true /\ 1 <= clue_of ch <= 9 /\
   ((e = DuplicateRow (clue_of ch) i /\
     Z.testbit (row_mask s i) (clue_of ch - 1) = true) \/
    (e = DuplicateCol (clue_of ch) j /\
     Z.testbit (col_mask s j) (clue_of ch - 1) = true) \/
    (e = DuplicateBox (clue_of ch) (box_index i j) /\
     Z.testbit (box_mask s (box_index i j)) (clue_of ch - 1) = true))).
Proof.
  unfold load_cell, char_ok, clue_of. cbv zeta.
  destruct (isdigit _ && negb _) eqn:Ed.
  - destruct (int _) as [v|] eqn:Ei.
    + destruct (Z.leb_spec 1 v) as [H1|H1];
        destruct (Z.leb_spec v 9) as [H9|H9]; simpl;
        try (intros E; inversion E; left; split; [reflexivity|];
             right; left; exists v; auto).
      destruct (truthy (Z.land (row_mask s i) (bit_of v))) eqn:E1.
      { rewrite truthy_land_bit in E1 by assumption.
        intros E; inversion E; subst. right. split; [reflexivity|]. split; [lia|].
        left. auto. }
      destruct (truthy (Z.land (col_mask s j) (bit_of v))) eqn:E2.
      { rewrite truthy_land_bit in E2 by assumption.
        intros E; inversion E; subst. right. split; [reflexivity|]. split; [lia|].
        right. left. auto. }
      destruct (truthy (Z.land (box_mask s (box_index i j)) (bit_of v))) eqn:E3.
      { rewrite truthy_land_bit in E3 by assumption.
        intros E; inversion E; subst. right. split; [reflexivity|]. split; [lia|].
        right. right. auto. }
      intros E; discriminate E.
    + intros E; inversion E. left. split; [reflexivity|]. left.
      apply andb_prop in Ed as [Ed _]. auto.
  - destruct (char_in _ _) eqn:Ec; simpl; intros E; [discriminate E|].
    inversion E. left. split; [reflexivity|]. right. right. auto.
Qed.

(** A set mask bit comes from an earlier character of the same unit. *)
Lemma mask_bit_origin puzzle k s v :
  loaded_upto puzzle k s -> (k < 81)%nat -> 1 <= v ->
  (Z.testbit (row_mask s (k / 9)) (v - 1) = true ->
   exists k', (k' < k)%nat /\ (k' / 9 = k / 9)%nat /\
              clue_of (nth k' puzzle 0%N) = v) /\
  (Z.testbit (col_mask s (k mod 9)) (v - 1) = true ->
   exists k', (k' < k)%nat /\ (k' mod 9 = k mod 9)%nat /\
              clue_of (nth k' puzzle 0%N) = v) /\
  (Z.testbit (box_mask s (box_index (k / 9) (k mod 9))) (v - 1) = true ->
   exists k', (k' < k)%nat /\
              box_index (k' / 9) (k' mod 9) = box_index (k / 9) (k mod 9) /\
              clue_of (nth k' puzzle 0%N) = v).
Proof.
  intros ((_ & _ & (HR & HC & HB) & _) & Hcells) Hk Hv.
  destruct (cell_index_lt k Hk) as [Hi Hj].
  assert (forall r' c', (r' < 9)%nat -> (c' < 9)%nat -> cell s r' c' = v ->
            (r' * 9 + c' < k)%nat /\
            clue_of (nth (r' * 9 + c') puzzle 0%N) = v) as Hfind.
  { intros r' c' Hr' Hc' E. destruct (rc_of_index r' c' Hc') as [E1 E2].
    assert (r' * 9 + c' < 81)%nat as Hk' by lia.
    pose proof (Hcells _ Hk') as Hc. rewrite E1, E2, E in Hc.
    destruct (Nat.ltb_spec (r' * 9 + c') k); [auto|lia]. }
  split; [|split]; intros Hb.
  - apply HR in Hb as (c' & Hc' & E); [|assumption|assumption].
    destruct (Hfind _ _ Hi Hc' E) as [Hlt Hclue].
    exists (k / 9 * 9 + c')%nat. destruct (rc_of_index (k / 9) c' Hc') as [E1 _].
    auto.
  - apply HC in Hb as (r' & Hr' & E); [|assumption|assumption].
    destruct (Hfind _ _ Hr' Hj E) as [Hlt Hclue].
    exists (r' * 9 + k mod 9)%nat.
    destruct (rc_of_index r' (k mod 9) Hj) as [_ E2]. auto.
  - apply HB in Hb as (r' & c' & Hr' & Hc' & Hbx & E);
      [|apply box_index_lt; assumption|assumption].
    destruct (Hfind _ _ Hr' Hc' E) as [Hlt Hclue].
    exists (r' * 9 + c')%nat. destruct (rc_of_index r' c' Hc') as [E1 E2].
    rewrite E1, E2. auto.
Qed.

(** X2.  [load_board] returns exactly on the inputs of 81 characters, each
    of them one the loader lets through, whose clues are not repeated in a
    row, a column or a box. *)
Theorem load_board_succeeds_iff s0 puzzle :
  (exists s, load_board s0 puzzle = (s, Returned)) <->
  length puzzle = 81%nat /\
  (forall k, (k < 81)%nat -> char_ok (nth k puzzle 0%N) = true) /\
  clues_conflict_free puzzle.
Proof.
  split.
  - intros (s & H). split; [exact (load_board_length _ _ _ H)|]. split.
    + intros k Hk.
      apply (load_loop_chars_ok puzzle 81 0 _ _
               (load_board_returned_run _ _ _ H)). lia.
    + destruct (load_board_success _ _ _ H) as (_ & _ & Hcells & _ & Hnc & _).
      intros k k' Hk Hk' Hne Hp Hnz E.
      destruct (cell_index_lt k Hk) as [Hi Hj].
      destruct (cell_index_lt k' Hk') as [Hi' Hj'].
      pose proof (Hcells _ _ Hi Hj) as C1. pose proof (Hcells _ _ Hi' Hj') as C2.
      rewrite index_of_cell in C1, C2.
      assert (cell s (k / 9) (k mod 9) <> 0) as N1 by (rewrite C1; exact Hnz).
      assert (cell s (k / 9) (k mod 9) = cell s (k' / 9) (k' mod 9)) as N2
        by (rewrite C1, C2; exact E).
      destruct (Hnc _ _ _ _ Hi Hj Hi' Hj' N1 N2 Hp) as [A B].
      apply Hne. apply cell_index_inj; assumption.
  - intros (Hlen & Hok & Hfree).
    destruct (load_board s0 puzzle) as [s [|e]] eqn:E; [eauto|exfalso].
    apply load_board_raised in E
      as [(Hne & _)|(_ & k & Hk & HL & Hexit & _)]; [contradiction|].
    apply load_cell_exit_cases in Hexit. cbv zeta in Hexit.
    rewrite index_of_cell in Hexit.
    destruct Hexit as [(Hbad & _)|(_ & Hv & Hdup)].
    { rewrite (Hok k Hk) in Hbad. discriminate Hbad. }
    destruct (mask_bit_origin puzzle k s _ HL Hk (proj1 Hv)) as (HR & HC & HB).
    assert (exists k', (k' < k)%nat /\
              peers (k / 9) (k mod 9) (k' / 9) (k' mod 9) /\
              clue_of (nth k' puzzle 0%N) = clue_of (nth k puzzle 0%N))
      as (k' & Hlt & Hp & Hclue).
    { destruct Hdup as [(_ & Hb)|[(_ & Hb)|(_ & Hb)]].
      - destruct (HR Hb) as (k' & Hlt & Hsame & Hc). exists k'.
        unfold peers. auto.
      - destruct (HC Hb) as (k' & Hlt & Hsame & Hc). exists k'.
        unfold peers. auto.
      - destruct (HB Hb) as (k' & Hlt & Hsame & Hc). exists k'.
        unfold peers. auto. }
    assert (k' < 81)%nat as Hk' by (apply (Nat.lt_trans _ k); assumption).
    assert (k <> k') as Hne by (intros ->; exact (Nat.lt_irrefl _ Hlt)).
    apply (Hfree k k' Hk Hk' Hne Hp).
    + clear - Hv. lia.
    + symmetry. exact Hclue.
Qed.

(** X3.  The error [load_board] raises tells the truth about the first
    character it cannot accept: every character before it is one the loader
    lets through; a duplicate error names a clue that an earlier character
    of the same row, column or box already gave; an invalid character is a
    character of the input outside the encoding. *)
Theorem load_error_truthful s0 puzzle s e :
  load_board s0 puzzle = (s, Raised e) ->
  length puzzle = 81%nat ->
  exists k, (k < 81)%nat /\
    (forall k0, (k0 < k)%nat -> char_ok (nth k0 puzzle 0%N) = true) /\
    error_explained puzzle k e.
Proof.
  intros H Hlen.
  apply load_board_raised in H
    as [(Hne & _)|(_ & k & Hk & HL & Hexit & Hrun)]; [contradiction|].
  exists k. split; [exact Hk|]. split.
  { intros k0 Hk0. apply (load_loop_chars_ok puzzle k 0 _ _ Hrun). lia. }
  pose proof Hexit as Hexit'. unfold error_explained.
  apply load_cell_exit_cases in Hexit. cbv zeta in Hexit.
  rewrite index_of_cell in Hexit.
  destruct Hexit as [(_ & [(-> & Hd & Hi)|[(v & -> & Hi)|(-> & Hnd & Hni)]])
                    |(_ & Hv & Hdup)].
  - auto.
  - split; [exact Hi|].
    apply load_cell_digit_range in Hexit' as (Hi' & _ & Hnr).
    rewrite index_of_cell in Hi'. pose proof (int_range _ _ Hi'). lia.
  - split; [reflexivity|].
    destruct (char_in (nth k puzzle 0%N) alphabet) eqn:Ea; [|reflexivity].
    exfalso. unfold char_in in Ea. apply existsb_exists in Ea as (x & Hx & E).
    apply N.eqb_eq in E. unfold str, char in *. rewrite E in Hnd, Hni. clear E.
    vm_compute in Hx.
    repeat (destruct Hx as [<-|Hx];
            [try (vm_compute in Hnd; discriminate Hnd);
             try (vm_compute in Hni; discriminate Hni)|]).
    exact Hx.
  - destruct (mask_bit_origin puzzle k s _ HL Hk (proj1 Hv)) as (HR & HC & HB).
    destruct Hdup as [(-> & Hb)|[(-> & Hb)|(-> & Hb)]].
    + destruct (HR Hb) as (k' & Hlt & Hsame & Hc). repeat split; try lia.
      exists k'. auto.
    + destruct (HC Hb) as (k' & Hlt & Hsame & Hc). repeat split; try lia.
      exists k'. auto.
    + destruct (HB Hb) as (k' & Hlt & Hsame & Hc). repeat split; try lia.
      exists k'. auto.
Qed.

Lemma load_error_truthful_witness :
  exists s k,
    load_board init box_clash = (s, Raised (DuplicateBox 5 0)) /\
    length box_clash = 81%nat /\ (k < 81)%nat /\
    (forall k0, (k0 < k)%nat -> char_ok (nth k0 box_clash 0%N) = true) /\
    error_explained box_clash k (DuplicateBox 5 0).
Proof.
  destruct (load_board init box_clash) as [s o] eqn:E.
  assert (o = Raised (DuplicateBox 5 0)) as ->
    by (vm_compute in E; inversion E; reflexivity).
  destruct (load_error_truthful init box_clash s _ E eq_refl) as (k & H).
  exists s, k. split; [reflexivity|]. split; [reflexivity|]. exact H.
Defined.

(** ** The puzzle bank *)

Lemma forallb_pointwise {A} (f g : A -> bool) l :
  (forall x, f x = g x) -> forallb f l = forallb g l.
Proof.
  intros H. induction l as [|a l IH]; simpl; [reflexivity|].
  rewrite H, IH. reflexivity.
Qed.

Lemma fallback_loads :
  length (repeat ch_dot 81) = 81%nat /\
  forallb (fun c => char_in c alphabet) (repeat ch_dot 81) = true /\
  exists s, load_board init (repeat ch_dot 81) = (s, Returned).
Proof.
  split; [reflexivity|]. split; [vm_compute; reflexivity|].
  exists (fst (load_board init (repeat ch_dot 81))). vm_compute. reflexivity.
Qed.

(** X11.  [sanitize_puzzle_bank] never returns an empty bank; every entry it
    returns has 81 characters of the encoding and loads without error into a
    fresh engine; every entry is the fallback or a puzzle of the raw bank
    under its own difficulty; and every raw puzzle that passes the three
    checks is kept. *)
Theorem sanitize_puzzle_bank_spec raw :
  sanitize_puzzle_bank raw <> [] /\
  (forall d p, In (d, p) (sanitize_puzzle_bank raw) ->
     length p = 81%nat /\
     forallb (fun c => char_in c alphabet) p = true /\
     exists s, load_board init p = (s, Returned)) /\
  (forall d p, In (d, p) (sanitize_puzzle_bank raw) ->
     (exists ps, In (d, ps) raw /\ In p ps) \/
     (d, p) = ("Easy"%string, repeat ch_dot 81)) /\
  (forall d ps p, In (d, ps) raw -> In p ps ->
     length p = 81%nat ->
     forallb (fun c => char_in c alphabet) p = true ->
     (exists s, load_board init p = (s, Returned)) ->
     In (d, p) (sanitize_puzzle_bank raw)).
Proof.
  unfold sanitize_puzzle_bank.
  match goal with
  | |- context [flat_map ?f raw] => set (per_difficulty := f)
  end.
  set (bank := flat_map per_difficulty raw).
  assert (forall c, char_in c (of_string "0123456789.") = char_in c alphabet)
    as Halpha.
  { intros c. unfold char_in.
    change (of_string "0123456789.")
      with [48; 49; 50; 51; 52; 53; 54; 55; 56; 57; 46]%N.
    change alphabet with [46; 48; 49; 50; 51; 52; 53; 54; 55; 56; 57]%N.
    cbn [existsb]. rewrite !orb_false_r.
    destruct (c =? 46)%N; [rewrite !orb_true_r; reflexivity|].
    rewrite orb_false_r. reflexivity. }
  assert (forall d p, In (d, p) bank <->
            (exists ps, In (d, ps) raw /\ In p ps) /\ length p = 81%nat /\
            forallb (fun c => char_in c alphabet) p = true /\
            exists s, load_board init p = (s, Returned)) as Hbank.
  { intros d p. unfold bank. rewrite in_flat_map. split.
    - intros ([d' ps] & Hraw & Hin). unfold per_difficulty in Hin.
      apply in_flat_map in Hin as (q & Hq & Hin).
      rewrite (forallb_pointwise _ _ q Halpha) in Hin.
      destruct (Nat.eqb_spec (length q) 81) as [Hlen|Hlen]; cbn [negb] in Hin;
        [|destruct Hin].
      destruct (forallb (fun c => char_in c alphabet) q) eqn:Hch;
        cbn [negb] in Hin; [|destruct Hin].
      destruct (load_board init q) as [s [|e]] eqn:Hload; [|destruct Hin].
      destruct Hin as [E|[]]. inversion E; subst.
      split; [eauto|]. split; [exact Hlen|]. split; [exact Hch|eauto].
    - intros ((ps & Hraw & Hp) & Hlen & Hch & s & Hload).
      exists (d, ps). split; [exact Hraw|]. unfold per_difficulty.
      apply in_flat_map. exists p. split; [exact Hp|].
      rewrite (forallb_pointwise _ _ p Halpha), Hlen, Hch, Hload.
      left. reflexivity. }
  pose proof fallback_loads as Hfallback.
  clearbody bank. clear per_difficulty.
  destruct bank as [|entry bank'].
  - split; [discriminate|]. split; [|split].
    + intros d p [E|[]]. inversion E; subst. exact Hfallback.
    + intros d p [E|[]]. right. symmetry. exact E.
    + intros d ps p Hraw Hp Hlen Hch Hload. exfalso.
      apply (proj2 (Hbank d p)). split; [eauto|auto].
  - split; [discriminate|]. split; [|split].
    + intros d p Hin. apply Hbank in Hin. apply Hin.
    + intros d p Hin. apply Hbank in Hin. left. apply Hin.
    + intros d ps p Hraw Hp Hlen Hch Hload. apply Hbank. split; [eauto|auto].
Qed.

(** ** The search, one frame and one candidate at a time *)

Lemma solve_recursive_step fuel env w :
  _solve_recursive (S fuel) env w =
  let (stopped, w1) := poll env w in
  if stopped then Some (false, w1)
  else
    match _find_mrv_cell (self w1) with
    | None => Some (check_solved (self w1), w1)
    | Some (r, c, cands) => search_loop fuel env r c cands w1
    end.
Proof. reflexivity. Qed.

Lemma search_loop_nil fuel env r c w :
  search_loop fuel env r c [] w = Some (false, w).
Proof. reflexivity. Qed.

Lemma search_loop_cons fuel env r c v vs w :
  search_loop fuel env r c (v :: vs) w =
  let (stopped', w3) := poll env w in
  if stopped' then Some (false, w3)
  else
    match _solve_recursive fuel env (mutate w3 (place (self w3) r c v)) with
    | None => None
    | Some (true, w5) => Some (true, w5)
    | Some (false, w5) =>
        search_loop fuel env r c vs (mutate w5 (unplace (self w5) r c v))
    end.
Proof.
  unfold search_loop. cbn [for_in].
  destruct (poll env w) as [stopped' w3]. destruct stopped'; [reflexivity|].
  cbv zeta.
  destruct (_solve_recursive fuel env (mutate w3 (place (self w3) r c v)))
    as [[[|] w5]|]; reflexivity.
Qed.

(** ** Cancellation *)

Lemma flag_post_trans env w1 w2 res :
  (polls w1 <= polls w2)%nat ->
  (stop_requested (self w2) = false ->
   stop_requested (self w1) = false /\
   forall k, (polls w1 <= k < polls w2)%nat -> env k = false) ->
  flag_post env w2 res -> flag_post env w1 res.
Proof.
  intros Hle Hmid. destruct res as [[b w']|]; [|exact id].
  intros (Hle' & Hflag & Htrue). split; [lia|]. split; [|exact Htrue].
  intros Hf. destruct (Hflag Hf) as [Hf2 Hk2]. destruct (Hmid Hf2) as [Hf1 Hk1].
  split; [exact Hf1|]. intros k Hk.
  destruct (Nat.lt_ge_cases k (polls w2)); [apply Hk1|apply Hk2]; lia.
Qed.

Lemma flag_post_poll env w :
  (polls w <= polls (snd (poll env w)))%nat /\
  (stop_requested (self (snd (poll env w))) = false ->
   stop_requested (self w) = false /\
   forall k, (polls w <= k < polls (snd (poll env w)))%nat -> env k = false) /\
  fst (poll env w) = stop_requested (self (snd (poll env w))).
Proof.
  unfold poll. cbn [fst snd polls self]. split; [lia|]. split; [|reflexivity].
  destruct (env (polls w)) eqn:E; cbn [stop stop_requested].
  - intros Hf. discriminate Hf.
  - intros Hf. split; [exact Hf|]. intros k Hk.
    replace k with (polls w) by lia. exact E.
Qed.

Lemma solve_recursive_flag fuel env :
  forall w, flag_post env w (_solve_recursive fuel env w).
Proof.
  induction fuel as [|fuel IH]; intros w; [exact I|].
  rewrite solve_recursive_step.
  pose proof (flag_post_poll env w) as (Hle & Hmid & Hfst).
  destruct (poll env w) as [stopped w1]. cbn [fst snd] in *.
  apply (flag_post_trans env w w1); [exact Hle|exact Hmid|].
  destruct stopped.
  { simpl. split; [lia|]. split; [|discriminate].
    intros Hf. split; [exact Hf|]. intros k Hk. lia. }
  destruct (_find_mrv_cell (self w1)) as [[[r c] cands]|].
  2:{ simpl. split; [lia|]. split.
      - intros Hf. split; [exact Hf|]. intros k Hk. lia.
      - intros _. symmetry. exact Hfst. }
  clear Hle Hmid Hfst w. generalize w1. clear w1.
  induction cands as [|v vs IHvs]; intros w.
  - rewrite search_loop_nil. simpl. split; [lia|]. split; [|discriminate].
    intros Hf. split; [exact Hf|]. intros k Hk. lia.
  - rewrite search_loop_cons.
    pose proof (flag_post_poll env w) as (Hle & Hmid & Hfst).
    destruct (poll env w) as [stopped' w3]. cbn [fst snd] in *.
    apply (flag_post_trans env w w3); [exact Hle|exact Hmid|].
    destruct stopped'.
    { simpl. split; [lia|]. split; [|discriminate].
      intros Hf. split; [exact Hf|]. intros k Hk. lia. }
    pose proof (IH (mutate w3 (place (self w3) r c v))) as Hrec.
    destruct (_solve_recursive fuel env (mutate w3 (place (self w3) r c v)))
      as [[[|] w5]|].
    + exact Hrec.
    + apply (flag_post_trans env w3 (mutate w5 (unplace (self w5) r c v)));
        [apply Hrec|apply Hrec|apply IHvs].
    + exact I.
Qed.

(** X9.  [solve] returns [True] only when none of its reads of the
    cancellation flag met a call of [stop]: as soon as one read sees the flag
    set, the result is [False]. *)
Theorem solve_true_not_cancelled env s w :
  solve env s = Some (true, w) ->
  stop_requested (self w) = false /\
  forall k, (k < polls w)%nat -> env k = false.
Proof.
  intros H. unfold solve in H.
  pose proof (solve_recursive_flag solve_fuel env
                (mkRun (set_stop_requested s false) O [])) as Hp.
  rewrite H in Hp. destruct Hp as (_ & Hflag & Htrue).
  specialize (Htrue eq_refl). split; [exact Htrue|].
  intros k Hk. apply (proj2 (Hflag Htrue)). cbn [polls]. lia.
Qed.

Lemma solve_true_not_cancelled_witness :
  exists w,
    solve cancel_at_2 (fst (load_board init solved_grid)) = Some (true, w) /\
    polls w = 1%nat /\
    stop_requested (self w) = false /\
    forall k, (k < polls w)%nat -> cancel_at_2 k = false.
Proof.
  destruct (solve cancel_at_2 (fst (load_board init solved_grid)))
    as [[[|] w]|] eqn:Hsolve.
  - exists w. split; [reflexivity|].
    pose proof (solve_true_not_cancelled _ _ _ Hsolve) as H.
    split; [|exact H]. vm_compute in Hsolve. inversion Hsolve. reflexivity.
  - exfalso. vm_compute in Hsolve. discriminate.
  - exfalso. vm_compute in Hsolve. discriminate.
Defined.

(** ** A solution keeps the clues *)

Lemma keeps_digits_grid s1 s2 s' :
  grid s1 = grid s2 -> keeps_digits s2 s' -> keeps_digits s1 s'.
Proof.
  intros Hg H r c Hr Hc. rewrite (cell_grid _ _ r c Hg). apply H; assumption.
Qed.

Lemma keeps_digits_place s r c v s' :
  wf s -> (r < 9)%nat -> (c < 9)%nat -> cell s r c = 0 ->
  keeps_digits (place s r c v) s' -> keeps_digits s s'.
Proof.
  intros Hwf Hr Hc Hz H r' c' Hr' Hc' Hnz.
  assert ((r', c') <> (r, c)) as Hne
    by (intros E; inversion E; subst; contradiction).
  rewrite <- (cell_place_other s r c v r' c') by assumption.
  apply H; try assumption. rewrite cell_place_other by assumption. exact Hnz.
Qed.

Lemma solve_recursive_keeps fuel env :
  forall w, Inv (self w) -> Forall Inv (history w) ->
  match _solve_recursive fuel env w with
  | Some (true, w') => keeps_digits (self w) (self w')
  | _ => True
  end.
Proof.
  induction fuel as [|fuel IH]; intros w HI HH; [exact I|].
  rewrite solve_recursive_step.
  pose proof (poll_grid env w) as [Hg1 Hh1].
  destruct (poll env w) as [stopped w1]; simpl in Hg1, Hh1.
  assert (Inv (self w1)) as HI1 by (apply (Inv_grid _ _ Hg1); exact HI).
  assert (Forall Inv (history w1)) as HH1 by (rewrite Hh1; exact HH).
  destruct stopped; [exact I|].
  destruct (_find_mrv_cell (self w1)) as [[[r c] cands]|] eqn:Emrv.
  2:{ destruct (check_solved (self w1)); [|exact I].
      intros r c Hr Hc _. apply cell_grid. exact Hg1. }
  apply find_mrv_some in Emrv as (Hr & Hc & Hcell & Hcands).
  assert (forall vs w2,
            incl vs cands -> Inv (self w2) -> Forall Inv (history w2) ->
            grid (self w2) = grid (self w1) ->
            match search_loop fuel env r c vs w2 with
            | Some (true, w') => keeps_digits (self w) (self w')
            | _ => True
            end) as Hloop.
  { induction vs as [|v vs IHvs]; intros w2 Hincl HI2 HH2 Hg2.
    - rewrite search_loop_nil. exact I.
    - rewrite search_loop_cons.
      pose proof (poll_grid env w2) as [Hg3 Hh3].
      destruct (poll env w2) as [stopped' w3]; simpl in Hg3, Hh3.
      assert (grid (self w3) = grid (self w1)) as Hg31
        by (rewrite Hg3; exact Hg2).
      assert (Inv (self w3)) as HI3 by (apply (Inv_grid _ _ Hg31); exact HI1).
      assert (Forall Inv (history w3)) as HH3 by (rewrite Hh3; exact HH2).
      destruct stopped'; [exact I|].
      assert (In v (_get_candidates (self w3) r c)) as Hv3.
      { rewrite (candidates_grid _ _ r c Hg31), <- Hcands.
        apply Hincl. left. reflexivity. }
      assert (Inv (place (self w3) r c v)) as HI4
        by (apply Inv_place; assumption).
      pose proof (IH (mutate w3 (place (self w3) r c v)) HI4
                     (Forall_cons _ HI4 HH3)) as Hkeep.
      pose proof (solve_recursive_post fuel env
                    (mutate w3 (place (self w3) r c v)) HI4
                    (Forall_cons _ HI4 HH3)) as Hpost.
      destruct (_solve_recursive fuel env (mutate w3 (place (self w3) r c v)))
        as [[[|] w5]|]; simpl in Hpost, Hkeep.
      + apply (keeps_digits_grid _ (self w3));
          [rewrite Hg31; symmetry; exact Hg1|].
        apply (keeps_digits_place _ r c v); try assumption.
        * apply HI3.
        * rewrite (cell_grid _ _ r c Hg31). exact Hcell.
      + destruct Hpost as (HI5 & HH5 & Hg5).
        assert (grid (unplace (self w5) r c v) = grid (self w3)) as Hg6
          by (apply unplace_place_grid; assumption).
        apply IHvs.
        * intros x Hx. apply Hincl. right. exact Hx.
        * simpl. apply (Inv_grid _ _ Hg6). exact HI3.
        * simpl. constructor; [|exact HH5].
          apply (Inv_grid _ _ Hg6). exact HI3.
        * simpl. rewrite Hg6. exact Hg31.
      + exact I. }
  apply Hloop; auto. apply incl_refl.
Qed.

(** X7.  When [solve] returns [True] on a loaded puzzle, the grid it leaves
    carries every clue of the puzzle at its place: the solution completes the
    puzzle that was loaded. *)
Theorem solution_keeps_clues s0 puzzle s env w :
  load_board s0 puzzle = (s, Returned) ->
  solve env s = Some (true, w) ->
  forall i j, (i < 9)%nat -> (j < 9)%nat ->
    clue_of (nth (i * 9 + j) puzzle 0%N) <> 0 ->
    nth j (nth i (get_solution (self w)) []) 0
    = clue_of (nth (i * 9 + j) puzzle 0%N).
Proof.
  intros Hload Hsolve i j Hi Hj Hclue.
  pose proof (load_board_Inv _ _ _ Hload) as HI.
  pose proof (solve_recursive_keeps solve_fuel env
                (mkRun (set_stop_requested s false) O [])
                (Inv_set_stop s false HI) (Forall_nil _)) as Hkeep.
  unfold solve in Hsolve. rewrite Hsolve in Hkeep. cbn [self] in Hkeep.
  pose proof (load_board_returned _ _ _ Hload) as (_ & Hcells).
  destruct (rc_of_index i j Hj) as [E1 E2].
  assert (i * 9 + j < 81)%nat as Hk by lia.
  pose proof (Hcells _ Hk) as Hc. rewrite E1, E2 in Hc.
  replace (i * 9 + j <? 81)%nat with true in Hc
    by (symmetry; apply Nat.ltb_lt; exact Hk).
  rewrite get_solution_board. rewrite <- Hc.
  apply (Hkeep i j Hi Hj). change (cell s i j <> 0). rewrite Hc. exact Hclue.
Qed.

Lemma solution_keeps_clues_witness :
  exists s w,
    load_board init almost_solved = (s, Returned) /\
    solve no_cancel s = Some (true, w) /\
    clue_of (nth (3 * 9 + 4) almost_solved 0%N) <> 0 /\
    nth 4 (nth 3 (get_solution (self w)) []) 0
    = clue_of (nth (3 * 9 + 4) almost_solved 0%N).
Proof.
  exists (fst (load_board init almost_solved)).
  assert (load_board init almost_solved
          = (fst (load_board init almost_solved), Returned)) as Hload
    by (vm_compute; reflexivity).
  assert (clue_of (nth (3 * 9 + 4) almost_solved 0%N) <> 0) as Hclue
    by (vm_compute; discriminate).
  destruct (solve no_cancel (fst (load_board init almost_solved)))
    as [[[|] w]|] eqn:Hsolve.
  - exists w. split; [exact Hload|]. split; [reflexivity|].
    split; [exact Hclue|].
    apply (solution_keeps_clues init almost_solved _ no_cancel w Hload Hsolve);
      [lia|lia|exact Hclue].
  - exfalso. vm_compute in Hsolve. discriminate.
  - exfalso. vm_compute in Hsolve. discriminate.
Defined.

(** ** Calling [solve] again *)

Lemma solve_grid env s s' : grid s' = grid s -> solve env s' = solve env s.
Proof.
  intros H. rewrite (grid_eq_set_stop _ _ H). apply solve_any_flag.
Qed.

(** X10.  After a [solve] that returned [True], a second [solve] (with no
    cancellation requested before its first read of the flag) returns [True]
    at once: no placement is made and the board is the same. *)
Theorem solve_again_after_success s0 puzzle s env w env' :
  load_board s0 puzzle = (s, Returned) ->
  solve env s = Some (true, w) ->
  env' 0%nat = false ->
  exists w', solve env' (self w) = Some (true, w') /\
             board (self w') = board (self w) /\ history w' = [].
Proof.
  intros Hload Hsolve Henv.
  pose proof (solve_post env s (load_board_Inv _ _ _ Hload)) as H.
  rewrite Hsolve in H. simpl in H. destruct H as (_ & _ & Hfull).
  apply solve_full; [exact Henv|]. apply check_solved_true. exact Hfull.
Qed.

Lemma solve_again_after_success_witness :
  exists s w w',
    load_board init almost_solved = (s, Returned) /\
    solve no_cancel s = Some (true, w) /\
    no_cancel 0%nat = false /\
    solve no_cancel (self w) = Some (true, w') /\
    board (self w') = board (self w) /\ history w' = [].
Proof.
  exists (fst (load_board init almost_solved)).
  assert (load_board init almost_solved
          = (fst (load_board init almost_solved), Returned)) as Hload
    by (vm_compute; reflexivity).
  destruct (solve no_cancel (fst (load_board init almost_solved)))
    as [[[|] w]|] eqn:Hsolve.
  - destruct (solve_again_after_success init almost_solved _ no_cancel w
                no_cancel Hload Hsolve eq_refl) as (w' & H).
    exists w, w'. split; [exact Hload|]. split; [reflexivity|].
    split; [reflexivity|exact H].
  - exfalso. vm_compute in Hsolve. discriminate.
  - exfalso. vm_compute in Hsolve. discriminate.
Defined.

(** X13.  After a [solve] that returned [False], whether the candidates were
    exhausted or the search was cancelled, the engine needs no reload: any
    later [solve] behaves exactly as on the freshly loaded engine. *)
Theorem solve_again_after_failure s0 puzzle s env w env' :
  load_board s0 puzzle = (s, Returned) ->
  solve env s = Some (false, w) ->
  solve env' (self w) = solve env' s.
Proof.
  intros Hload Hsolve. apply solve_grid.
  pose proof (solve_post env s (load_board_Inv _ _ _ Hload)) as H.
  rewrite Hsolve in H. simpl in H. destruct H as (_ & _ & Hg).
  rewrite Hg. apply grid_set_stop.
Qed.

Lemma solve_again_after_failure_witness :
  exists s w,
    load_board init unsolvable = (s, Returned) /\
    solve cancel_at_2 s = Some (false, w) /\
    solve no_cancel (self w) = solve no_cancel s.
Proof.
  exists (fst (load_board init unsolvable)).
  assert (load_board init unsolvable
          = (fst (load_board init unsolvable), Returned)) as Hload
    by (vm_compute; reflexivity).
  destruct (solve cancel_at_2 (fst (load_board init unsolvable)))
    as [[[|] w]|] eqn:Hsolve.
  - exfalso. vm_compute in Hsolve. discriminate.
  - exists w. split; [exact Hload|]. split; [reflexivity|].
    exact (solve_again_after_failure init unsolvable _ cancel_at_2 w no_cancel
             Hload Hsolve).
  - exfalso. vm_compute in Hsolve. discriminate.
Defined.

(** ** An exhausted search means that there is no solution *)

Lemma count_occ_two (f : nat * nat -> Z) ps p q v :
  NoDup ps -> In p ps -> In q ps -> p <> q -> f p = v -> f q = v ->
  (2 <= count_occ Z.eq_dec (List.map f ps) v)%nat.
Proof.
  induction 1 as [|a t Ha Hnd IH]; intros Hp Hq Hne Hfp Hfq; [destruct Hp|].
  simpl. destruct Hp as [->|Hp], Hq as [->|Hq].
  - contradiction.
  - destruct (Z.eq_dec (f p) v); [|contradiction].
    assert (count_occ Z.eq_dec (List.map f t) v > 0)%nat
      by (apply count_occ_In; rewrite <- Hfq; apply in_map; exact Hq).
    lia.
  - destruct (Z.eq_dec (f q) v); [|contradiction].
    assert (count_occ Z.eq_dec (List.map f t) v > 0)%nat
      by (apply count_occ_In; rewrite <- Hfp; apply in_map; exact Hp).
    lia.
  - specialize (IH Hp Hq Hne Hfp Hfq). destruct (Z.eq_dec (f a) v); lia.
Qed.

Lemma unit_distinct g ps r c r' c' :
  unit_ok ps = true -> each_digit_once (values_at g ps) ->
  In (r, c) ps -> In (r', c') ps -> (r, c) <> (r', c') ->
  1 <= nth c (nth r g []) 0 <= 9 ->
  nth c (nth r g []) 0 <> nth c' (nth r' g []) 0.
Proof.
  intros Hok Honce Hp Hq Hne Hv E.
  unfold unit_ok in Hok. rewrite !andb_true_iff in Hok.
  destruct Hok as (((_ & Hnd) & _) & _). apply nodupb_NoDup in Hnd.
  pose proof (count_occ_two (fun '(r, c) => nth c (nth r g []) 0) ps
                (r, c) (r', c') _ Hnd Hp Hq Hne eq_refl (eq_sym E)) as H2.
  specialize (Honce _ Hv). unfold values_at in Honce. lia.
Qed.

Lemma in_box_cells r c :
  (r < 9)%nat -> (c < 9)%nat -> In (r, c) (box_cells (box_index r c)).
Proof.
  intros Hr Hc. unfold box_cells, box_index.
  pose proof (Nat.div_mod_eq r 3). pose proof (Nat.div_mod_eq c 3).
  pose proof (Nat.mod_upper_bound r 3). pose proof (Nat.mod_upper_bound c 3).
  assert (c / 3 < 3)%nat by (apply Nat.Div0.div_lt_upper_bound; lia).
  assert ((r / 3 * 3 + c / 3) / 3 = r / 3)%nat as ->
    by (symmetry; apply (Nat.div_unique _ 3 (r / 3) (c / 3)); lia).
  assert ((r / 3 * 3 + c / 3) mod 3 = c / 3)%nat as ->
    by (symmetry; apply (Nat.mod_unique _ 3 (r / 3) (c / 3)); lia).
  rewrite in_prod_iff, !in_seq. lia.
Qed.

Lemma valid_no_equal_peers g r c r' c' :
  sudoku_valid g ->
  (r < 9)%nat -> (c < 9)%nat -> (r' < 9)%nat -> (c' < 9)%nat ->
  (r, c) <> (r', c') -> peers r c r' c' ->
  nth c (nth r g []) 0 <> nth c' (nth r' g []) 0.
Proof.
  intros (Hrange & Hunits) Hr Hc Hr' Hc' Hne Hp.
  pose proof (Hrange r c Hr Hc) as Hv.
  destruct Hp as [<-|[<-|Hb]].
  - destruct (Hunits r Hr) as (Hrow & _). destruct (units_ok r Hr) as (Hok & _).
    apply (unit_distinct g (row_cells r)); auto;
      unfold row_cells, range; apply in_map_iff; eexists;
      (split; [reflexivity|apply in_seq; lia]).
  - destruct (Hunits c Hc) as (_ & Hcol & _).
    destruct (units_ok c Hc) as (_ & Hok & _).
    apply (unit_distinct g (col_cells c)); auto;
      unfold col_cells, range; apply in_map_iff; eexists;
      (split; [reflexivity|apply in_seq; lia]).
  - pose proof (box_index_lt r c Hr Hc) as Hlt.
    destruct (Hunits _ Hlt) as (_ & _ & Hbox).
    destruct (units_ok _ Hlt) as (_ & _ & Hok).
    apply (unit_distinct g (box_cells (box_index r c))); auto.
    + apply in_box_cells; assumption.
    + rewrite Hb. apply in_box_cells; assumption.
Qed.

Lemma solution_value_is_candidate s g r c :
  Inv s -> sudoku_valid g -> extends s g ->
  (r < 9)%nat -> (c < 9)%nat -> cell s r c = 0 ->
  In (nth c (nth r g []) 0) (_get_candidates s r c).
Proof.
  intros (_ & _ & (HR & HC & HB) & _) Hvalid Hext Hr Hc Hz.
  pose proof (proj1 Hvalid r c Hr Hc) as Hv.
  assert (forall r' c', (r' < 9)%nat -> (c' < 9)%nat -> peers r c r' c' ->
            cell s r' c' = nth c (nth r g []) 0 -> False) as Hclash.
  { intros r' c' Hr' Hc' Hp E.
    assert ((r, c) <> (r', c')) as Hne
      by (intros Heq; inversion Heq; subst; lia).
    apply (valid_no_equal_peers g r c r' c'); auto.
    rewrite (Hext r' c') by (assumption || lia). symmetry. exact E. }
  apply in_candidates. split; [exact Hz|]. split; [exact Hv|].
  split; [|split].
  - destruct (Z.testbit (row_mask s r) _) eqn:Eb; [|reflexivity].
    apply HR in Eb as (c' & Hc' & E); [|assumption|lia].
    exfalso. apply (Hclash r c'); auto. unfold peers. auto.
  - destruct (Z.testbit (col_mask s c) _) eqn:Eb; [|reflexivity].
    apply HC in Eb as (r' & Hr' & E); [|assumption|lia].
    exfalso. apply (Hclash r' c); auto. unfold peers. auto.
  - destruct (Z.testbit (box_mask s (box_index r c)) _) eqn:Eb; [|reflexivity].
    apply HB in Eb as (r' & c' & Hr' & Hc' & Hbx & E);
      [|apply box_index_lt; assumption|lia].
    exfalso. apply (Hclash r' c'); auto. unfold peers. auto.
Qed.

Lemma extends_grid s1 s2 g : grid s1 = grid s2 -> extends s2 g -> extends s1 g.
Proof.
  intros Hg H r c Hr Hc. rewrite (cell_grid _ _ r c Hg). apply H; assumption.
Qed.

Lemma extends_place s r c g :
  wf s -> (r < 9)%nat -> (c < 9)%nat ->
  extends s g -> extends (place s r c (nth c (nth r g []) 0)) g.
Proof.
  intros Hwf Hr Hc H r' c' Hr' Hc'. rewrite cell_place by assumption.
  destruct (Nat.eqb_spec r' r) as [->|N1]; destruct (Nat.eqb_spec c' c) as [->|N2];
    simpl; auto.
Qed.

Lemma poll_no_cancel env w :
  never_cancelled env ->
  poll env w
  = (stop_requested (self w), mkRun (self w) (S (polls w)) (history w)).
Proof. intros H. unfold poll. rewrite H. reflexivity. Qed.

Lemma solve_recursive_complete fuel env :
  never_cancelled env ->
  forall w, Inv (self w) -> Forall Inv (history w) ->
  stop_requested (self w) = false ->
  match _solve_recursive fuel env w with
  | Some (b, w') =>
      stop_requested (self w') = false /\ (b = false -> no_solution (self w))
  | None => True
  end.
Proof.
  intros Henv. induction fuel as [|fuel IH]; intros w HI HH Hflag; [exact I|].
  rewrite solve_recursive_step, (poll_no_cancel env w Henv), Hflag.
  set (w1 := mkRun (self w) (S (polls w)) (history w)).
  change (self w) with (self w1) in HI, Hflag |- *.
  change (history w) with (history w1) in HH.
  clearbody w1. clear w.
  destruct (_find_mrv_cell (self w1)) as [[[r c] cands]|] eqn:Emrv.
  2:{ split; [exact Hflag|]. intros Hcs g Hvalid Hext.
      apply find_mrv_none in Emrv as [Hno|(r & c & Hr & Hc & (Hz & Hd) & _)].
      - assert (check_solved (self w1) = true) as Ht; [|congruence].
        apply check_solved_true. intros r c Hr Hc E. apply Hno.
        exists r, c. auto.
      - pose proof (solution_value_is_candidate _ g r c HI Hvalid Hext Hr Hc Hz)
          as Hin.
        rewrite Hd in Hin. exact Hin. }
  apply find_mrv_some in Emrv as (Hr & Hc & Hcell & Hcands).
  assert (forall vs w2,
            incl vs cands -> Inv (self w2) -> Forall Inv (history w2) ->
            grid (self w2) = grid (self w1) ->
            stop_requested (self w2) = false ->
            (forall g, sudoku_valid g -> extends (self w1) g ->
                       In (nth c (nth r g []) 0) vs) ->
            match search_loop fuel env r c vs w2 with
            | Some (b, w') =>
                stop_requested (self w') = false /\
                (b = false -> no_solution (self w1))
            | None => True
            end) as Hloop.
  { induction vs as [|v vs IHvs]; intros w2 Hincl HI2 HH2 Hg2 Hf2 Hrest.
    - rewrite search_loop_nil. split; [exact Hf2|].
      intros _ g Hvalid Hext. exact (Hrest g Hvalid Hext).
    - rewrite search_loop_cons, (poll_no_cancel env w2 Henv), Hf2.
      set (w3 := mkRun (self w2) (S (polls w2)) (history w2)).
      change (self w2) with (self w3) in HI2, Hg2, Hf2.
      change (history w2) with (history w3) in HH2.
      clearbody w3. clear w2.
      assert (In v (_get_candidates (self w3) r c)) as Hv3.
      { rewrite (candidates_grid _ _ r c Hg2), <- Hcands.
        apply Hincl. left. reflexivity. }
      assert (Inv (place (self w3) r c v)) as HI4
        by (apply Inv_place; assumption).
      pose proof (IH (mutate w3 (place (self w3) r c v)) HI4
                     (Forall_cons _ HI4 HH2) Hf2) as Hrec.
      pose proof (solve_recursive_post fuel env
                    (mutate w3 (place (self w3) r c v)) HI4
                    (Forall_cons _ HI4 HH2)) as Hpost.
      destruct (_solve_recursive fuel env (mutate w3 (place (self w3) r c v)))
        as [[[|] w5]|]; simpl in Hpost; cbn [self mutate] in Hrec.
      + split; [apply Hrec|]. discriminate.
      + destruct Hrec as (Hf5 & Hnone). specialize (Hnone eq_refl).
        destruct Hpost as (HI5 & HH5 & Hg5).
        assert (grid (unplace (self w5) r c v) = grid (self w3)) as Hg6
          by (apply unplace_place_grid; assumption).
        apply IHvs.
        * intros x Hx. apply Hincl. right. exact Hx.
        * simpl. apply (Inv_grid _ _ Hg6). exact HI2.
        * simpl. constructor; [|exact HH5].
          apply (Inv_grid _ _ Hg6). exact HI2.
        * simpl. rewrite Hg6. exact Hg2.
        * exact Hf5.
        * intros g Hvalid Hext.
          destruct (Hrest g Hvalid Hext) as [Ev|Hin]; [|exact Hin].
          exfalso. apply (Hnone g Hvalid). rewrite Ev.
          apply extends_place; try assumption; [apply HI2|].
          apply (extends_grid _ (self w1)); assumption.
      + exact I. }
  apply Hloop; auto.
  - apply incl_refl.
  - intros g Hvalid Hext. rewrite Hcands.
    apply solution_value_is_candidate; assumption.
Qed.

(** X8.  When [solve] returns [False] on a loaded puzzle and no cancellation
    was requested during the search, the puzzle has no solution: no grid in
    which every row, column and box holds each digit once keeps all the
    clues. *)
Theorem solve_false_no_solution s0 puzzle s env w :
  load_board s0 puzzle = (s, Returned) ->
  never_cancelled env ->
  solve env s = Some (false, w) ->
  forall g, sudoku_valid g -> ~ extends s g.
Proof.
  intros Hload Henv Hsolve g Hvalid Hext.
  pose proof (load_board_Inv _ _ _ Hload) as HI.
  pose proof (solve_recursive_complete solve_fuel env Henv
                (mkRun (set_stop_requested s false) O [])
                (Inv_set_stop s false HI) (Forall_nil _) eq_refl) as H.
  unfold solve in Hsolve. rewrite Hsolve in H. destruct H as (_ & Hnone).
  apply (Hnone eq_refl g Hvalid). exact Hext.
Qed.

Lemma solve_false_no_solution_witness :
  exists w,
    load_board init unsolvable = (unsolvable_state, Returned) /\
    never_cancelled no_cancel /\
    solve no_cancel unsolvable_state = Some (false, w) /\
    forall g, sudoku_valid g -> ~ extends unsolvable_state g.
Proof.
  assert (load_board init unsolvable = (unsolvable_state, Returned)) as Hload
    by (vm_compute; reflexivity).
  assert (never_cancelled no_cancel) as Henv by (intros k; reflexivity).
  destruct (solve no_cancel unsolvable_state) as [[[|] w]|] eqn:Hsolve.
  - exfalso. vm_compute in Hsolve. discriminate.
  - exists w. split; [exact Hload|]. split; [exact Henv|].
    split; [reflexivity|].
    exact (solve_false_no_solution init unsolvable _ no_cancel w
             Hload Henv Hsolve).
  - exfalso. vm_compute in Hsolve. discriminate.
Defined.

(** ** The cell the search branches on *)

(** ** The cell the MRV selection picks *)

Lemma mrv_acc_ok_skip s a acc :
  cell s (a / 9) (a mod 9) <> 0 -> mrv_acc_ok s a acc -> mrv_acc_ok s (S a) acc.
Proof.
  intros Hnz. destruct acc as [[[[r c] cands]|] bl]; simpl.
  - intros (k & Hk & -> & -> & -> & H2 & Hz & Hc & H1 & Hbefore & Hmin).
    exists k. split; [lia|]. repeat split; auto.
    intros H2' k' Hk' Hz'. destruct (Nat.eq_dec k' a) as [->|Hne];
      [contradiction|]. apply Hmin; [exact H2'|lia|exact Hz'].
  - intros (-> & Hall). split; [reflexivity|]. intros k' Hk'.
    destruct (Nat.eq_dec k' a) as [->|Hne]; [exact Hnz|apply Hall; lia].
Qed.

Lemma mrv_scan_pick s n :
  forall a acc, (a + n = 81)%nat -> mrv_acc_ok s a acc ->
  mrv_result_ok s
    (for_in (seq a n) (fun k acc' => mrv_step s (k / 9) (k mod 9) acc') acc).
Proof.
  induction n as [|n IH]; intros a acc Han Hacc; cbn [for_in seq].
  - simpl. replace 81%nat with a by lia. exact Hacc.
  - destruct acc as [best bl].
    unfold mrv_step at 1.
    destruct (Z.eqb_spec (cell s (a / 9) (a mod 9)) 0) as [Hz|Hnz].
    2:{ apply IH; [lia|]. apply mrv_acc_ok_skip; assumption. }
    pose proof (candidates_length s (a / 9) (a mod 9)) as Hle9.
    destruct (_get_candidates s (a / 9) (a mod 9)) as [|v0 cs] eqn:Ec;
      [exact I|].
    set (cands := v0 :: cs) in *.
    assert (1 <= length cands)%nat as H1 by (subst cands; simpl; lia).
    assert (forall k', (k' < a)%nat -> cell s (k' / 9) (k' mod 9) = 0 ->
              (bl <= length (_get_candidates s (k' / 9) (k' mod 9)))%nat /\
              (2 <= bl)%nat) as Hseen.
    { intros k' Hk' Hz'. destruct best as [[[r c] cands0]|]; simpl in Hacc.
      - destruct Hacc as (k & Hk & -> & -> & -> & H2 & _ & _ & _ & _ & Hmin).
        split; [|exact H2]. apply Hmin; assumption.
      - destruct Hacc as (_ & Hall). exfalso. exact (Hall k' Hk' Hz'). }
    destruct (Nat.ltb_spec (length cands) bl) as [Hlt|Hge].
    + assert (mrv_pick s a cands (S a)) as Hpick.
      { split; [exact Hz|]. split; [symmetry; exact Ec|]. split; [exact H1|].
        split.
        - intros k' Hk' Hz'. destruct (Hseen k' Hk' Hz'). lia.
        - intros _ k' Hk' Hz'. destruct (Nat.eq_dec k' a) as [->|Hne].
          + rewrite Ec. apply Nat.le_refl.
          + destruct (Hseen k' ltac:(lia) Hz'). lia. }
      destruct (Nat.eqb_spec (length cands) 1) as [E1|E1].
      * unfold mrv_result_ok. exists a. split; [lia|]. split; [reflexivity|].
        split; [reflexivity|].
        destruct Hpick as (P1 & P2 & P3 & P4 & _).
        split; [exact P1|]. split; [exact P2|]. split; [exact P3|].
        split; [exact P4|]. intros H2. lia.
      * apply IH; [lia|]. unfold mrv_acc_ok. exists a. split; [lia|].
        split; [reflexivity|]. split; [reflexivity|].
        split; [reflexivity|]. split; [lia|exact Hpick].
    + apply IH; [lia|].
      destruct best as [[[r c] cands0]|]; unfold mrv_acc_ok in Hacc |- *.
      * destruct Hacc as (k & Hk & -> & -> & -> & H2 & Hz0 & Hc0 & H10 & Hb0 & Hmin).
        exists k. split; [lia|]. repeat split; auto.
        intros H2' k' Hk' Hz'. destruct (Nat.eq_dec k' a) as [->|Hne].
        -- rewrite Ec. exact Hge.
        -- apply Hmin; [exact H2'|lia|exact Hz'].
      * destruct Hacc as (-> & _). lia.
Qed.

(** X13.  The cell [_find_mrv_cell] returns is an empty cell of the board
    with its candidates, of which there is at least one; every empty cell
    before it in row-major order has strictly more candidates (ties go to
    the first cell); and unless the returned cell has a single candidate (the
    shortcut), no empty cell of the whole board has fewer candidates. *)
Theorem find_mrv_minimal s r c cands :
  _find_mrv_cell s = Some (r, c, cands) ->
  (r < 9)%nat /\ (c < 9)%nat /\ cell s r c = 0 /\
  cands = _get_candidates s r c /\ cands <> [] /\
  (forall r' c', (r' < 9)%nat -> (c' < 9)%nat -> before r' c' r c ->
     cell s r' c' = 0 ->
     (length cands < length (_get_candidates s r' c'))%nat) /\
  ((2 <= length cands)%nat ->
   forall r' c', (r' < 9)%nat -> (c' < 9)%nat -> cell s r' c' = 0 ->
     (length cands <= length (_get_candidates s r' c'))%nat).
Proof.
  intros H.
  assert (exists k, (k < 81)%nat /\ r = (k / 9)%nat /\ c = (k mod 9)%nat /\
                    mrv_pick s k cands 81)
    as (k & Hk & -> & -> & Hz & Hc & H1 & Hbefore & Hmin).
  { unfold _find_mrv_cell in H. rewrite mrv_loops_flat in H. unfold range in H.
    assert (mrv_acc_ok s 0 (None, 10%nat)) as Hacc0.
    { split; [reflexivity|]. intros k' Hk'. inversion Hk'. }
    pose proof (mrv_scan_pick s 81 0 (None, 10%nat) eq_refl Hacc0) as Hres.
    destruct (for_in (seq 0 81) _ (None, 10%nat)) as [[best bl]|res].
    - subst best. unfold mrv_result_ok, mrv_acc_ok in Hres.
      destruct Hres as (k & Hk & Hr & Hc & _ & _ & Hpick). eauto.
    - subst res. exact Hres. }
  destruct (cell_index_lt k Hk) as [Hr Hcl].
  split; [exact Hr|]. split; [exact Hcl|]. split; [exact Hz|].
  split; [exact Hc|]. split.
  { intros ->. inversion H1. }
  split.
  - intros r' c' Hr' Hc' Hb Hz'. unfold before in Hb.
    rewrite index_of_cell in Hb.
    destruct (rc_of_index r' c' Hc') as [E1 E2].
    specialize (Hbefore (r' * 9 + c')%nat Hb). rewrite E1, E2 in Hbefore.
    apply Hbefore. exact Hz'.
  - intros H2 r' c' Hr' Hc' Hz'.
    destruct (rc_of_index r' c' Hc') as [E1 E2].
    assert (r' * 9 + c' < 81)%nat as Hk'.
    { clear - Hr' Hc'. lia. }
    specialize (Hmin H2 (r' * 9 + c')%nat Hk'). rewrite E1, E2 in Hmin.
    apply Hmin. exact Hz'.
Qed.


Lemma find_mrv_minimal_witness :
  exists s r c cands,
    _find_mrv_cell s = Some (r, c, cands) /\
    (2 <= length cands)%nat /\
    forall r' c', (r' < 9)%nat -> (c' < 9)%nat -> cell s r' c' = 0 ->
      (length cands <= length (_get_candidates s r' c'))%nat.
Proof.
  exists (fst (load_board init one_clue)), 0%nat, 1%nat, [2; 3; 4; 5; 6; 7; 8; 9].
  assert (_find_mrv_cell (fst (load_board init one_clue))
          = Some (0%nat, 1%nat, [2; 3; 4; 5; 6; 7; 8; 9])) as E
    by (vm_compute; reflexivity).
  split; [exact E|].
  split; [simpl; lia|].
  exact (proj2 (proj2 (proj2 (proj2 (proj2 (proj2
           (find_mrv_minimal _ _ _ _ E))))))
         ltac:(simpl; lia)).
Defined.

(** ** The engine between calls *)

Lemma load_board_keeps_Inv s puzzle :
  Inv s -> Inv (fst (load_board s puzzle)).
Proof.
  intros HI.
  destruct (load_board s puzzle) as [s' o] eqn:E. cbn [fst].
  destruct o as [|e].
  - exact (load_board_Inv _ _ _ E).
  - destruct (load_board_raised _ _ _ _ E)
      as [(_ & _ & ->) | (_ & k & _ & (HI' & _) & _)].
    + exact HI.
    + exact HI'.
Qed.

(** X14.  Between calls the engine is always coherent: after [__init__] and
    any sequence of [load_board] calls (returning or raising), [solve] calls
    (whatever they return, cancelled or not) and [stop] calls, the board has
    nine rows of nine values in 0..9, the three mask lists record exactly
    the digits of each row, column and box, and no digit occurs twice in a
    row, column or box. *)
Theorem engine_always_coherent s :
  reachable s ->
  wf s /\ cells_in_range s /\ masks_consistent s /\ no_conflict s.
Proof.
  intros H. change (Inv s).
  induction H as [| s puzzle _ IH | s env b w _ IH E | s _ IH].
  - exact (Inv_reset false).
  - exact (load_board_keeps_Inv s puzzle IH).
  - pose proof (solve_post env s IH) as P. rewrite E in P.
    exact (proj1 P).
  - exact (Inv_set_stop s true IH).
Qed.

Lemma engine_always_coherent_witness :
  reachable (stop (fst (load_board (fst (load_board init one_clue))
                                   clue_then_letter))) /\
  masks_consistent (stop (fst (load_board (fst (load_board init one_clue))
                                          clue_then_letter))).
Proof.
  assert (reachable (stop (fst (load_board (fst (load_board init one_clue))
                                           clue_then_letter)))) as R.
  { apply reach_stop, reach_load, reach_load, reach_init. }
  split; [exact R|].
  exact (proj1 (proj2 (proj2 (engine_always_coherent _ R)))).
Defined.

(** ** The timer label *)

Lemma zeros_uint k u :
  String.append (zeros k) (DecimalString.NilEmpty.string_of_uint u)
  = DecimalString.NilEmpty.string_of_uint (Nat.iter k Decimal.D0 u).
Proof.
  induction k as [|k IH]; [reflexivity|].
  cbn [zeros Nat.iter]. cbn. rewrite IH. reflexivity.
Qed.

Lemma of_uint_zeros k u : Z.of_uint (Nat.iter k Decimal.D0 u) = Z.of_uint u.
Proof.
  induction k as [|k IH]; [reflexivity|]. exact IH.
Qed.

(** Reading a formatted number back gives the number. *)
Lemma format_02d_decodes n :
  exists d, DecimalString.NilEmpty.int_of_string (format_02d n) = Some d /\
            Z.of_int d = n.
Proof.
  unfold format_02d, decimal.
  set (k := (2 - _ - _)%nat). clearbody k.
  rewrite zeros_uint.
  assert (Z.of_uint (Nat.iter k Decimal.D0 (N.to_uint (Z.abs_N n)))
          = Z.abs n) as Hv.
  { rewrite of_uint_zeros. unfold Z.of_uint.
    change (Pos.of_uint (N.to_uint (Z.abs_N n)))
      with (N.of_uint (N.to_uint (Z.abs_N n))).
    rewrite DecimalN.Unsigned.of_to. apply N2Z.inj_abs_N. }
  destruct (n <? 0) eqn:E.
  - exists (Decimal.Neg (Nat.iter k Decimal.D0 (N.to_uint (Z.abs_N n)))).
    split.
    + exact (DecimalString.NilEmpty.isi (Decimal.Neg _)).
    + cbn [Z.of_int]. rewrite Hv. apply Z.ltb_lt in E. lia.
  - exists (Decimal.Pos (Nat.iter k Decimal.D0 (N.to_uint (Z.abs_N n)))).
    split.
    + exact (DecimalString.NilEmpty.isi (Decimal.Pos _)).
    + cbn [Z.of_int]. rewrite Hv. apply Z.ltb_ge in E. lia.
Qed.

Lemma format_02d_inj n n' : format_02d n = format_02d n' -> n = n'.
Proof.
  intros E.
  destruct (format_02d_decodes n) as (d & Hd & <-).
  destruct (format_02d_decodes n') as (d' & Hd' & <-).
  rewrite E in Hd. rewrite Hd in Hd'. inversion Hd'. reflexivity.
Qed.

Lemma no_colon_app a b :
  no_colon (String.append a b) = no_colon a && no_colon b.
Proof.
  induction a as [|c a IH]; [reflexivity|].
  cbn [String.append no_colon]. rewrite IH. apply andb_assoc.
Qed.

Lemma no_colon_uint u :
  no_colon (DecimalString.NilEmpty.string_of_uint u) = true.
Proof.
  induction u; cbn [DecimalString.NilEmpty.string_of_uint no_colon];
    try rewrite IHu; reflexivity.
Qed.

Lemma no_colon_zeros k : no_colon (zeros k) = true.
Proof.
  induction k as [|k IH]; [reflexivity|].
  cbn [zeros]. rewrite no_colon_app, IH. reflexivity.
Qed.

Lemma no_colon_format_02d n : no_colon (format_02d n) = true.
Proof.
  unfold format_02d, decimal.
  rewrite !no_colon_app, no_colon_zeros, no_colon_uint.
  destruct (n <? 0); reflexivity.
Qed.

(** A string is cut at its first colon in one way only. *)
Lemma split_at_colon a : forall a' b b',
  no_colon a = true -> no_colon a' = true ->
  String.append a (String.String colon b)
  = String.append a' (String.String colon b') ->
  a = a' /\ b = b'.
Proof.
  induction a as [|c a IH]; intros [|c' a'] b b' Ha Ha' E;
    cbn [String.append] in E.
  - inversion E. split; reflexivity.
  - inversion E as [[Ec Eb]]. subst c'. cbn [no_colon] in Ha'.
    rewrite Ascii.eqb_refl in Ha'. discriminate Ha'.
  - inversion E as [[Ec Eb]]. subst c. cbn [no_colon] in Ha.
    rewrite Ascii.eqb_refl in Ha. discriminate Ha.
  - inversion E as [[Ec Eb]]. subst c'. cbn [no_colon] in Ha, Ha'.
    apply andb_true_iff in Ha, Ha'.
    destruct (IH a' b b' (proj2 Ha) (proj2 Ha') Eb) as [-> ->].
    split; reflexivity.
Qed.

Lemma format_time_fields a b :
  _format_time a = _format_time b ->
  a / 60 = b / 60 /\ a mod 60 = b mod 60.
Proof.
  unfold _format_time. intros E.
  change (String.append ":" ?x) with (String.String colon x) in E.
  apply split_at_colon in E; try apply no_colon_format_02d.
  destruct E as [E1 E2].
  split; apply format_02d_inj; assumption.
Qed.

Lemma format_02d_two_digits n :
  0 <= n < 100 -> format_02d n = two_digits n.
Proof.
  intros H.
  assert (forallb (fun k => String.eqb (format_02d (Z.of_nat k))
                                        (two_digits (Z.of_nat k)))
            (seq 0 100) = true) as Hall by (vm_compute; reflexivity).
  rewrite forallb_forall in Hall.
  specialize (Hall (Z.to_nat n)).
  rewrite Z2Nat.id in Hall by lia.
  apply String.eqb_eq. apply Hall. apply in_seq. lia.
Qed.

(** X15.  The timer label has the announced shape MM:SS exactly for times
    under a hundred minutes: for [0 <= seconds < 6000] it is the two digits
    of [seconds // 60], a colon and the two digits of [seconds % 60]; and a
    label of that shape comes from such a time only, with [MM] the minutes
    and [SS] (below 60) the seconds. *)
Theorem format_time_mm_ss seconds :
  (0 <= seconds < 6000 ->
   _format_time seconds = mm_ss (seconds / 60) (seconds mod 60)) /\
  (forall m s, 0 <= m < 100 -> 0 <= s < 100 ->
     _format_time seconds = mm_ss m s ->
     0 <= seconds < 6000 /\ s < 60 /\ seconds = 60 * m + s).
Proof.
  split.
  - intros H. unfold _format_time, mm_ss.
    rewrite !format_02d_two_digits; [reflexivity| |].
    + pose proof (Z.mod_pos_bound seconds 60 ltac:(lia)). lia.
    + split; [apply Z.div_pos; lia|].
      apply Z.div_lt_upper_bound; lia.
  - intros m s Hm Hs E. unfold _format_time, mm_ss in E.
    rewrite <- !format_02d_two_digits in E by assumption.
    change (String.append ":" ?x) with (String.String colon x) in E.
    apply split_at_colon in E; try apply no_colon_format_02d.
    destruct E as [E1 E2].
    apply format_02d_inj in E1, E2.
    pose proof (Z.div_mod seconds 60 ltac:(lia)) as D.
    pose proof (Z.mod_pos_bound seconds 60 ltac:(lia)) as B.
    rewrite E1, E2 in D. rewrite E2 in B. lia.
Qed.

Lemma format_time_mm_ss_witness :
  _format_time 754 = "12:34"%string /\
  (0 <= 754 < 6000 /\ 34 < 60 /\ 754 = 60 * 12 + 34).
Proof.
  split; [vm_compute; reflexivity|].
  apply (proj2 (format_time_mm_ss 754) 12 34); [lia | lia |].
  vm_compute. reflexivity.
Defined.

(** X16.  The timer label determines the elapsed time: two different
    numbers of seconds, of either sign and of any size, never get the same
    label. *)
Theorem format_time_injective a b :
  _format_time a = _format_time b -> a = b.
Proof.
  intros E. apply format_time_fields in E. destruct E as [E1 E2].
  rewrite (Z.div_mod a 60), (Z.div_mod b 60) by lia.
  rewrite E1, E2. reflexivity.
Qed.

Lemma format_time_injective_witness :
  _format_time (-1) = "-1:59"%string /\ (60 * -1 + 59 = -1).
Proof.
  split; [vm_compute; reflexivity|].
  apply (format_time_injective (60 * -1 + 59) (-1)).
  vm_compute. reflexivity.
Defined.
